(** * Rate limiter of the GaDL Telegram bot

    A shallow embedding of [gamdl_telegram/rate_limiter.py] (class
    [RateLimiter]) and the properties of its sliding-window admission.

    Modelling choices.
    - [time.time()] is read once, on the first line of every operation;
      the value read is the explicit argument [current_time].  A Python
      float is a rational number, so a clock reading is a [Qc], and it
      may have a fraction of a second.
    - The cleanup test [current_time - timestamp <= window] is taken
      over the rationals.  Python compares a float with an int exactly,
      but it first rounds the difference of the two floats to the
      nearest float.  Rounding is monotone and leaves the ints a float
      holds as they are, so it never drops a bucket whose age is within
      the window and never keeps one that is a second or more past it;
      it does keep a bucket whose age exceeds the window by less than
      the rounding error (readings 0.1 and 1.1 with window 1: the age
      is 1 + 3/2^55, which rounds to 1).  What is stated of expiry
      below is therefore stated of buckets that are at least a second
      past their window ([long_expired]), or of the sweep itself; what
      is stated of retention is stated of ages within the window.
    - Python ints are unbounded: limits, windows, counts and user ids are
      [Z]; an IP address is a [string].
    - A dict is a [gmap]; [d[k]] on a missing key raises [KeyError], which
      is kept as a possible outcome of every operation.
    - Operations run in a small state monad with exceptions and a log of
      the [logger.warning] lines.
    - The locks serialise the critical sections; the embedding is the
      sequential behaviour of one call. *)

From Stdlib Require Import QArith Qcanon Lqa.
From stdpp Require Import gmap strings pretty.

Local Open Scope Z_scope.

(** ** Exceptions, outcomes and the operation monad *)

Inductive exn : Type :=
  | KeyError
  | RuntimeError (msg : string).

Inductive outcome (A : Type) : Type :=
  | Return (a : A)
  | Raise (e : exn).
Arguments Return {A} a.
Arguments Raise {A} e.

(** A computation over a state [S]: its outcome, the state it leaves
    and the warnings it logged. *)
Definition M (S A : Type) : Type := S → outcome A * S * list string.

Section monad.
Context {S : Type}.

Definition ret {A} (a : A) : M S A := λ s, (Return a, s, []).

Definition bind {A B} (m : M S A) (k : A → M S B) : M S B := λ s,
  match m s with
  | (Return a, s1, l1) =>
      match k a s1 with (r, s2, l2) => (r, s2, l1 ++ l2) end
  | (Raise e, s1, l1) => (Raise e, s1, l1)
  end.

(** [raise e] *)
Definition raise {A} (e : exn) : M S A := λ s, (Raise e, s, []).

(** Reading and writing the attributes of [self] (or the captured
    variables of a closure). *)
Definition get : M S S := λ s, (Return s, s, []).
Definition put (s : S) : M S unit := λ _, (Return tt, s, []).

(** [logger.warning(msg)] *)
Definition logger_warning (msg : string) : M S unit :=
  λ s, (Return tt, s, [msg]).

End monad.

Global Instance M_ret {S} : MRet (M S) := λ A, ret.
Global Instance M_bind {S} : MBind (M S) := λ A B k m, bind m k.

(** ** Dictionaries of buckets *)

(** A bucket map: timestamp ↦ number of requests seen at that timestamp. *)
Abbreviation buckets := (gmap Qc Z).

(** [sum(d.values())] *)
Definition sum_values (d : buckets) : Z :=
  map_fold (λ _ count acc, acc + count) 0 d.

(** [d.get(k, 0)] *)
Definition dict_get (d : buckets) (k : Qc) : Z := default 0 (d !! k).

(** [d[k] = d.get(k, 0) + 1] *)
Definition increment (d : buckets) (k : Qc) : buckets :=
  <[k := dict_get d k + 1]> d.

(** [d[k]], raising [KeyError] on a missing key. *)
Definition getitem {S K V} `{Countable K} (d : gmap K V) (k : K) : M S V :=
  match d !! k with
  | Some v => ret v
  | None => raise KeyError
  end.

(** [k in d] *)
Definition contains {K V} `{Countable K} (k : K) (d : gmap K V) : bool :=
  bool_decide (is_Some (d !! k)).

(** ** The limiter *)

Record RateLimiter : Type := mkRateLimiter {
  global_limit : Z;
  global_window : Z;
  user_limit : Z;
  user_window : Z;
  ip_limit : Z;
  ip_window : Z;
  global_requests : buckets;
  user_requests : gmap Z buckets;
  ip_requests : gmap string buckets
}.

Definition set_global_requests (g : buckets) (self : RateLimiter) :=
  mkRateLimiter (global_limit self) (global_window self)
    (user_limit self) (user_window self) (ip_limit self) (ip_window self)
    g (user_requests self) (ip_requests self).

Definition set_user_requests (u : gmap Z buckets) (self : RateLimiter) :=
  mkRateLimiter (global_limit self) (global_window self)
    (user_limit self) (user_window self) (ip_limit self) (ip_window self)
    (global_requests self) u (ip_requests self).

Definition set_ip_requests (i : gmap string buckets) (self : RateLimiter) :=
  mkRateLimiter (global_limit self) (global_window self)
    (user_limit self) (user_window self) (ip_limit self) (ip_window self)
    (global_requests self) (user_requests self) i.

(** [RateLimiter.__init__] *)
Definition init (global_limit global_window user_limit user_window
                 ip_limit ip_window : Z) : RateLimiter :=
  mkRateLimiter global_limit global_window user_limit user_window
    ip_limit ip_window ∅ ∅ ∅.

(** [RateLimiter()] with the defaults of [__init__]. *)
Definition default_limiter : RateLimiter := init 100 60 10 60 50 60.

(** [RateLimiter._cleanup_expired_requests]; the age
    [current_time - timestamp] is the rational one (see above). *)
Definition _cleanup_expired_requests
    (request_dict : buckets) (window : Z) (current_time : Qc) : buckets :=
  filter (λ kv, (current_time - kv.1 ≤ Qc_of_Z window)%Qc) request_dict.

(** The block [# User-specific Rate Limiting] of [is_allowed]; the
    result is [false] where the block executes [return False]. *)
Definition user_rate_limiting (current_time : Qc) (user_id : option Z)
    : M RateLimiter bool :=
  match user_id with
  | None => mret true
  | Some user_id =>
      (* Initialize user requests if not exists *)
      self ← get;
      (if contains user_id (user_requests self) then mret tt
       else put (set_user_requests
                   (<[user_id := ∅]> (user_requests self)) self));;
      self ← get;
      user_reqs ← getitem (user_requests self) user_id;
      let user_reqs :=
        _cleanup_expired_requests user_reqs (user_window self)
          current_time in
      if sum_values user_reqs >=? user_limit self then
        logger_warning ("Rate limit exceeded for user " +:+ pretty user_id);;
        mret false
      else
        (* Increment user requests *)
        let user_reqs := increment user_reqs current_time in
        put (set_user_requests
               (<[user_id := user_reqs]> (user_requests self)) self);;
        mret true
  end.

(** The block [# IP-based Rate Limiting] of [is_allowed]. *)
Definition ip_rate_limiting (current_time : Qc) (ip_address : option string)
    : M RateLimiter bool :=
  match ip_address with
  | None => mret true
  | Some ip_address =>
      (* Initialize IP requests if not exists *)
      self ← get;
      (if contains ip_address (ip_requests self) then mret tt
       else put (set_ip_requests
                   (<[ip_address := ∅]> (ip_requests self)) self));;
      self ← get;
      ip_reqs ← getitem (ip_requests self) ip_address;
      let ip_reqs :=
        _cleanup_expired_requests ip_reqs (ip_window self) current_time in
      if sum_values ip_reqs >=? ip_limit self then
        logger_warning ("Rate limit exceeded for IP " +:+ ip_address);;
        mret false
      else
        (* Increment IP requests *)
        let ip_reqs := increment ip_reqs current_time in
        put (set_ip_requests
               (<[ip_address := ip_reqs]> (ip_requests self)) self);;
        mret true
  end.

(** [RateLimiter.is_allowed], [current_time] being the clock reading of
    its first line. *)
Definition is_allowed (current_time : Qc)
    (user_id : option Z) (ip_address : option string) : M RateLimiter bool :=
  (* Global Rate Limiting *)
  self ← get;
  put (set_global_requests
         (_cleanup_expired_requests
            (global_requests self) (global_window self) current_time) self);;
  self ← get;
  if sum_values (global_requests self) >=? global_limit self then
    logger_warning "Global rate limit exceeded";;
    mret false
  else
    (* Increment global requests *)
    put (set_global_requests
           (increment (global_requests self) current_time) self);;
    user_ok ← user_rate_limiting current_time user_id;
    if negb user_ok then mret false
    else
      ip_ok ← ip_rate_limiting current_time ip_address;
      if negb ip_ok then mret false
      else mret true.

(** [RateLimiter.get_wait_time]; [max_wait] starts at the int [0] and
    only ever takes the value of a window, so the result is a [Z]. *)
Definition get_wait_time (current_time : Qc)
    (user_id : option Z) (ip_address : option string) : M RateLimiter Z :=
  self ← get;
  let max_wait := 0 in
  (* Check global wait time *)
  let global_requests :=
    _cleanup_expired_requests (global_requests self) (global_window self)
      current_time in
  let max_wait :=
    if sum_values global_requests >=? global_limit self
    then Z.max max_wait (global_window self) else max_wait in
  (* Check user wait time *)
  max_wait ←
    match user_id with
    | Some user_id =>
        if contains user_id (user_requests self) then
          user_reqs ← getitem (user_requests self) user_id;
          let user_reqs :=
            _cleanup_expired_requests user_reqs (user_window self)
              current_time in
          if sum_values user_reqs >=? user_limit self
          then mret (Z.max max_wait (user_window self)) else mret max_wait
        else mret max_wait
    | None => mret max_wait
    end;
  (* Check IP wait time *)
  max_wait ←
    match ip_address with
    | Some ip_address =>
        if contains ip_address (ip_requests self) then
          ip_reqs ← getitem (ip_requests self) ip_address;
          let ip_reqs :=
            _cleanup_expired_requests ip_reqs (ip_window self)
              current_time in
          if sum_values ip_reqs >=? ip_limit self
          then mret (Z.max max_wait (ip_window self)) else mret max_wait
        else mret max_wait
    | None => mret max_wait
    end;
  mret max_wait.

(** ** The operation throttle: [RateLimiter.rate_limit] *)

(** A Python callable: its [__name__] and its body, which may read and
    write its own world [W], return or raise. *)
Record callable (W A B : Type) : Type := mkCallable {
  __name__ : string;
  call : A → M W B
}.
Arguments mkCallable {W A B} __name__ call.
Arguments __name__ {W A B} c.
Arguments call {W A B} c args.

(** What a decorated function lives in: the [requests] dict captured by
    the closure of [decorator], next to the world of the wrapped
    callable. *)
Record throttled (W : Type) : Type := mkThrottled {
  requests : buckets;
  world : W
}.
Arguments mkThrottled {W} requests world.
Arguments requests {W} t.
Arguments world {W} t.

Definition set_requests {W} (r : buckets) (st : throttled W) : throttled W :=
  mkThrottled r (world st).

(** Run the wrapped callable on its own world. *)
Definition call_func {W A B} (func : callable W A B) (args : A)
    : M (throttled W) B := λ st,
  match call func args (world st) with
  | (r, w, l) => (r, mkThrottled (requests st) w, l)
  end.

(** The function [wrapper] that [rate_limit(limit, window)(func)]
    returns, [current_time] being the clock reading of its first line;
    the age [current_time - timestamp] is the rational one, as in
    [_cleanup_expired_requests]. *)
Definition wrapper {W A B} (limit window : Z) (func : callable W A B)
    (current_time : Qc) (args : A) : M (throttled W) B :=
  (* Clean up expired requests *)
  st ← get;
  put (set_requests
         (filter (λ kv, (current_time - kv.1 ≤ Qc_of_Z window)%Qc)
            (requests st)) st);;
  st ← get;
  (* Check rate limit *)
  if sum_values (requests st) >=? limit then
    logger_warning ("Function rate limit exceeded: " +:+ __name__ func);;
    raise (RuntimeError "Rate limit exceeded")
  else
    (* Increment request count *)
    put (set_requests (increment (requests st) current_time) st);;
    call_func func args.

(** [rate_limit(limit, window)(func)]: the wrapper, whose [requests]
    dict starts empty. *)
Definition rate_limit {W A B} (limit window : Z) (func : callable W A B)
    : Qc → A → M (throttled W) B :=
  wrapper limit window func.

Definition decorated {W} (w : W) : throttled W := mkThrottled ∅ w.

(** A callable that does nothing and returns [None]. *)
Definition noop (name : string) : callable unit unit unit :=
  mkCallable name (λ _, mret tt).

(** ** Callers *)

(** A caller that makes one attempt after the other, catching what an
    attempt raises: the outcomes in order, and the state left. *)
Fixpoint attempts {S A} (ops : list (M S A)) (s : S)
    : list (outcome A) * S :=
  match ops with
  | [] => ([], s)
  | op :: ops =>
      match op s with
      | (r, s1, _) =>
          match attempts ops s1 with (rs, s2) => (r :: rs, s2) end
      end
  end.

(** The operations of the facade, and a caller that performs a
    sequence of them on one limiter. *)
Inductive operation : Type :=
  | IsAllowed (now : Qc) (user_id : option Z) (ip_address : option string)
  | GetWaitTime (now : Qc) (user_id : option Z) (ip_address : option string).

Definition run_operation (s : RateLimiter) (op : operation) : RateLimiter :=
  match op with
  | IsAllowed now u i => (is_allowed now u i s).1.2
  | GetWaitTime now u i => (get_wait_time now u i s).1.2
  end.

Definition run_operations (ops : list operation) (s : RateLimiter)
    : RateLimiter :=
  foldl run_operation s ops.

(** ** The example run: [main] *)

(** What [main] runs in: its [rate_limiter], the number of times the
    clock has been read, the lines printed and the durations handed to
    [time.sleep]. *)
Record process : Type := mkProcess {
  rate_limiter : RateLimiter;
  clock_reads : nat;
  stdout : list string;
  sleeps : list Z
}.

(** [time.time()], the clock being given by the values its successive
    readings return. *)
Definition time_time (clock : nat → Qc) : M process Qc := λ p,
  (Return (clock (clock_reads p)),
   mkProcess (rate_limiter p) (S (clock_reads p)) (stdout p) (sleeps p), []).

(** A method call on [rate_limiter]. *)
Definition on_rate_limiter {A} (m : M RateLimiter A) : M process A := λ p,
  match m (rate_limiter p) with
  | (r, s, l) => (r, mkProcess s (clock_reads p) (stdout p) (sleeps p), l)
  end.

(** [rate_limiter.is_allowed(user_id=..., ip_address=...)], which reads
    the clock on its first line; likewise [get_wait_time]. *)
Definition call_is_allowed (clock : nat → Qc)
    (user_id : option Z) (ip_address : option string) : M process bool :=
  current_time ← time_time clock;
  on_rate_limiter (is_allowed current_time user_id ip_address).

Definition call_get_wait_time (clock : nat → Qc)
    (user_id : option Z) (ip_address : option string) : M process Z :=
  current_time ← time_time clock;
  on_rate_limiter (get_wait_time current_time user_id ip_address).

(** [print(line)] *)
Definition print (line : string) : M process unit := λ p,
  (Return tt,
   mkProcess (rate_limiter p) (clock_reads p) (stdout p ++ [line]) (sleeps p),
   []).

(** [time.sleep(secs)]: the duration asked for is recorded.  (Python
    raises [ValueError] for a negative duration; the durations [main]
    asks for are shown to be positive.) *)
Definition time_sleep (secs : Z) : M process unit := λ p,
  (Return tt,
   mkProcess (rate_limiter p) (clock_reads p) (stdout p) (sleeps p ++ [secs]),
   []).

(** [float(n)] for an int [n], read back as an int: the nearest number
    with a significand of 53 bits, a tie going to the even significand.
    (From 2^1024 on Python raises [OverflowError]; what is formatted here
    is a wait, that is 0 or a window.) *)
Definition int_to_float (n : Z) : Z :=
  let a := Z.abs n in
  let shift := Z.log2 a - 52 in
  if shift <=? 0 then n
  else
    let q := Z.shiftr a shift in
    let r := Z.land a (Z.ones shift) in
    let half := Z.shiftl 1 (shift - 1) in
    let q := if (half <? r) || ((r =? half) && Z.odd q) then q + 1 else q in
    Z.sgn n * Z.shiftl q shift.

(** [f"{n:.2f}"] for an int [n]: the int is converted to a float, whose
    value is integral, and printed with two decimals. *)
Definition format_2f (n : Z) : string := pretty (int_to_float n) +:+ ".00".

(** [for x in l: body(x)] *)
Fixpoint for_each {S A} (l : list A) (body : A → M S unit) : M S unit :=
  match l with
  | [] => mret tt
  | x :: l => body x;; for_each l body
  end.

(** [range(n)] *)
Definition range (n : nat) : list Z := Z.of_nat <$> seq 0 n.

(** The body of the loop of [main]. *)
Definition main_request (clock : nat → Qc) (user_id : Z)
    (ip_address : string) (i : Z) : M process unit :=
  allowed ← call_is_allowed clock (Some user_id) (Some ip_address);
  if (allowed : bool) then
    print ("Request " +:+ pretty (i + 1) +:+ " allowed")
  else
    print ("Request " +:+ pretty (i + 1) +:+ " denied");;
    wait_time ← call_get_wait_time clock (Some user_id) (Some ip_address);
    print ("Please wait for " +:+ format_2f wait_time +:+
           " seconds before retrying");;
    time_sleep (wait_time + 1).

(** [main()], run on the clock [clock]. *)
Definition main (clock : nat → Qc) : outcome unit * process * list string :=
  let rate_limiter := default_limiter in
  let user_id := 123456789 in
  let ip_address := "192.168.1.1" in
  for_each (range 15) (main_request clock user_id ip_address)
    (mkProcess rate_limiter 0 [] []).

(** ** Notions used in the statements *)

(** Every bucket of a map the limiter builds holds a positive count. *)
Definition positive_counts (d : buckets) : Prop :=
  map_Forall (λ _ c, 0 < c) d.

(** The key map after [if k not in d: d[k] = {}]. *)
Definition track {K} `{Countable K} (k : K) (d : gmap K buckets)
    : gmap K buckets :=
  if contains k d then d else <[k := ∅]> d.

(** What the user block and the IP block of [is_allowed] do to their key
    map, and whether they let the request through. *)
Definition admit_key {K} `{Countable K} (limit window : Z) (now : Qc)
    (key : option K) (d : gmap K buckets) : bool * gmap K buckets :=
  match key with
  | None => (true, d)
  | Some k =>
      let reqs := _cleanup_expired_requests (default ∅ (d !! k)) window now in
      if sum_values reqs >=? limit then (false, track k d)
      else (true, <[k := increment reqs now]> d)
  end.

Global Arguments admit_key : simpl never.

Definition user_warning (user_id : option Z) : list string :=
  match user_id with
  | Some u => ["Rate limit exceeded for user " +:+ pretty u]
  | None => []
  end.

Definition ip_warning (ip_address : option string) : list string :=
  match ip_address with
  | Some i => ["Rate limit exceeded for IP " +:+ i]
  | None => []
  end.

(** What one scope check of [get_wait_time] does to [max_wait]. *)
Definition scope_wait (limit window : Z) (now : Qc) (max_wait : Z)
    (d : buckets) : Z :=
  if sum_values (_cleanup_expired_requests d window now) >=? limit
  then max_wait `max` window else max_wait.

(** The limiter with another user scope, resp. another IP scope. *)
Definition with_user_scope (limit window : Z) (reqs : gmap Z buckets)
    (self : RateLimiter) : RateLimiter :=
  mkRateLimiter (global_limit self) (global_window self)
    limit window (ip_limit self) (ip_window self)
    (global_requests self) reqs (ip_requests self).

Definition with_ip_scope (limit window : Z) (reqs : gmap string buckets)
    (self : RateLimiter) : RateLimiter :=
  mkRateLimiter (global_limit self) (global_window self)
    (user_limit self) (user_window self) limit window
    (global_requests self) (user_requests self) reqs.

(** The wait one scope asks for on behalf of one key: the full window
    when the buckets retained for the key are at or over the limit, and
    nothing otherwise. *)
Definition estimated_wait (limit window : Z) (now : Qc) (d : buckets) : Z :=
  if sum_values (_cleanup_expired_requests d window now) >=? limit
  then window else 0.

(** The three scopes of the facade, with their limit, their window and
    the buckets they hold for the key of a call (none when the call
    gives no key for the scope). *)
Inductive scope : Type := Global | PerUser | PerIP.

Global Instance scope_eq_dec : EqDecision scope.
Proof. solve_decision. Defined.

Definition scope_limit (X : scope) (s : RateLimiter) : Z :=
  match X with
  | Global => global_limit s
  | PerUser => user_limit s
  | PerIP => ip_limit s
  end.

Definition scope_window (X : scope) (s : RateLimiter) : Z :=
  match X with
  | Global => global_window s
  | PerUser => user_window s
  | PerIP => ip_window s
  end.

Definition scope_buckets (X : scope) (u : option Z) (i : option string)
    (s : RateLimiter) : option buckets :=
  match X with
  | Global => Some (global_requests s)
  | PerUser => (λ k, default ∅ (user_requests s !! k)) <$> u
  | PerIP => (λ k, default ∅ (ip_requests s !! k)) <$> i
  end.

(** The configuration of a limiter, which no operation changes. *)
Definition config (s : RateLimiter) : Z * Z * Z * Z * Z * Z :=
  (global_limit s, global_window s, user_limit s, user_window s,
   ip_limit s, ip_window s).

(** A clock reading inside the window that starts at [t0]. *)
Definition within (t0 : Qc) (window : Z) (now : Qc) : Prop :=
  (t0 ≤ now)%Qc ∧ (now ≤ t0 + Qc_of_Z window)%Qc.

(** No bucket older than [t0]. *)
Definition since (t0 : Qc) (d : buckets) : Prop :=
  ∀ k c, d !! k = Some c → (t0 ≤ k)%Qc.

(** After [k] calls with the keys [u], [i], all made inside one window
    of scope [X] that starts at [t0]: no scope has counted more than [k]
    of them and scope [X] has counted them all. *)
Definition counted (X : scope) (u : option Z) (i : option string)
    (t0 : Qc) (k : Z) (s : RateLimiter) : Prop :=
  (∀ Y d, scope_buckets Y u i s = Some d →
     positive_counts d ∧ sum_values d ≤ k) ∧
  (∀ d, scope_buckets X u i s = Some d → sum_values d = k ∧ since t0 d).

(** A callable that always returns. *)
Definition returns {W A B} (func : callable W A B) : Prop :=
  ∀ args w, ∃ b w' l, call func args w = (Return b, w', l).

(** A clock reading that is an integral number of seconds. *)
Definition whole_seconds (t : Qc) : Prop := ∃ n : Z, t = Qc_of_Z n.

(** The buckets a key map holds for a key, and whether they have a
    bucket at reading [t]. *)
Definition has_bucket {K} `{Countable K} (m : gmap K buckets) (key : K)
    (t : Qc) : Prop :=
  is_Some (m !! key ≫= λ d, d !! t).

(** Buckets that never counted more than [limit] requests at once. *)
Definition bounded (limit : Z) (d : buckets) : Prop :=
  positive_counts d ∧ sum_values d ≤ limit.

(** What every operation preserves: each stored bucket map, swept or
    not, sums to at most the limit of its scope. *)
Definition limiter_inv (s : RateLimiter) : Prop :=
  bounded (global_limit s) (global_requests s) ∧
  (∀ uid d, user_requests s !! uid = Some d → bounded (user_limit s) d) ∧
  (∀ ip d, ip_requests s !! ip = Some d → bounded (ip_limit s) d).

(** Buckets none of which passes the test of the sweep at reading
    [now]. *)
Definition stale (window : Z) (now : Qc) (d : buckets) : Prop :=
  ∀ k c, d !! k = Some c → ¬ (now - k ≤ Qc_of_Z window)%Qc.

(** Buckets that are all at least a second past the window at reading
    [now]: each of them is [window + 1] seconds old, or older. *)
Definition long_expired (window : Z) (now : Qc) (d : buckets) : Prop :=
  ∀ k c, d !! k = Some c → (k + Qc_of_Z (window + 1) ≤ now)%Qc.

(** The buckets [get_wait_time] consults for scope [X]: the global
    buckets, and those of a key that is given and tracked; a key that is
    given but not tracked yet is passed over. *)
Definition consulted (X : scope) (u : option Z) (i : option string)
    (s : RateLimiter) : option buckets :=
  match X with
  | Global => Some (global_requests s)
  | PerUser => u ≫= λ k, user_requests s !! k
  | PerIP => i ≫= λ k, ip_requests s !! k
  end.

(** What scope [X] asks the caller of [get_wait_time] to wait: nothing
    when the scope is not consulted. *)
Definition scope_estimate (X : scope) (now : Qc) (u : option Z)
    (i : option string) (s : RateLimiter) : Z :=
  from_option (estimated_wait (scope_limit X s) (scope_window X s) now) 0
    (consulted X u i s).

(** No bucket stamped later than [t]. *)
Definition no_later (t : Qc) (d : buckets) : Prop :=
  ∀ k c, d !! k = Some c → (k ≤ t)%Qc.

(** The clock reading of an operation. *)
Definition op_time (op : operation) : Qc :=
  match op with
  | IsAllowed now _ _ => now
  | GetWaitTime now _ _ => now
  end.

(** A key map none of whose keys ever had a request counted. *)
Definition never_counted {K} `{Countable K} (m : gmap K buckets) : Prop :=
  ∀ k d, m !! k = Some d → d = ∅.

(** No bucket of the limiter is stamped later than [t]: what holds when
    the clock has not read more than [t] so far. *)
Definition limiter_no_later (t : Qc) (s : RateLimiter) : Prop :=
  no_later t (global_requests s) ∧
  (∀ uid d, user_requests s !! uid = Some d → no_later t d) ∧
  (∀ ip d, ip_requests s !! ip = Some d → no_later t d).

(** After [k] calls with the keys [u], [i]: no scope has counted more
    than [k] requests for them. *)
Definition room (u : option Z) (i : option string) (k : Z)
    (s : RateLimiter) : Prop :=
  ∀ Y d, scope_buckets Y u i s = Some d →
    positive_counts d ∧ sum_values d ≤ k.

(** * Proofs *)

(** ** Facts about bucket maps *)

Lemma geb_true a b : b ≤ a → (a >=? b) = true.
Proof. intros. destruct (Z.geb_spec a b); [done|lia]. Qed.

Lemma geb_false a b : a < b → (a >=? b) = false.
Proof. intros. destruct (Z.geb_spec a b); [lia|done]. Qed.

Lemma sum_values_empty : sum_values ∅ = 0.
Proof. unfold sum_values. by rewrite map_fold_empty. Qed.

Lemma sum_values_insert (d : buckets) k c :
  d !! k = None → sum_values (<[k := c]> d) = sum_values d + c.
Proof.
  intros Hk. unfold sum_values.
  rewrite map_fold_insert_L; [done | intros; lia | done].
Qed.

Lemma sum_values_delete (d : buckets) k c :
  d !! k = Some c → sum_values d = sum_values (delete k d) + c.
Proof.
  intros Hk. rewrite <-(insert_delete_id d k c) at 1 by done.
  apply sum_values_insert, lookup_delete_eq.
Qed.

Lemma sum_values_singleton k c : sum_values {[ k := c ]} = c.
Proof.
  rewrite <-insert_empty, sum_values_insert by apply lookup_empty.
  rewrite sum_values_empty. lia.
Qed.

Lemma sum_values_increment (d : buckets) k :
  sum_values (increment d k) = sum_values d + 1.
Proof.
  unfold increment, dict_get. destruct (d !! k) as [c|] eqn:Hk; simpl.
  - rewrite <-insert_delete_eq, sum_values_insert by apply lookup_delete_eq.
    rewrite (sum_values_delete d k c) by done. lia.
  - by rewrite sum_values_insert.
Qed.

Lemma increment_empty k : increment ∅ k = {[ k := 1 ]}.
Proof. unfold increment, dict_get. by rewrite lookup_empty. Qed.

Lemma increment_lookup_now d now : is_Some (increment d now !! now).
Proof. unfold increment. rewrite lookup_insert_eq. eauto. Qed.

Lemma increment_lookup_inv d now k :
  is_Some (increment d now !! k) → k = now ∨ is_Some (d !! k).
Proof.
  unfold increment. destruct (decide (now = k)) as [->|Hne]; [by left|].
  rewrite lookup_insert_ne by done. by right.
Qed.

Lemma increment_lookup_is_Some d k j :
  is_Some (d !! j) → is_Some (increment d k !! j).
Proof.
  intros Hj. unfold increment. destruct (decide (k = j)) as [->|Hne].
  - rewrite lookup_insert_eq. eauto.
  - by rewrite lookup_insert_ne.
Qed.

Lemma positive_counts_empty : positive_counts ∅.
Proof. apply map_Forall_empty. Qed.

Lemma positive_counts_increment d k :
  positive_counts d → positive_counts (increment d k).
Proof.
  intros Hd. unfold increment, dict_get. apply map_Forall_insert_2; [|done].
  destruct (d !! k) as [c|] eqn:Hk; simpl; [|lia].
  specialize (Hd k c Hk). simpl in Hd. lia.
Qed.

Lemma positive_counts_filter (P : Qc * Z → Prop) `{!∀ x, Decision (P x)} d :
  positive_counts d → positive_counts (filter P d).
Proof.
  intros Hd k c [Hk _]%map_lookup_filter_Some. by apply (Hd k c).
Qed.

Lemma positive_counts_cleanup d w now :
  positive_counts d → positive_counts (_cleanup_expired_requests d w now).
Proof. apply positive_counts_filter. Qed.

Lemma sum_values_filter (P : Qc * Z → Prop) `{!∀ x, Decision (P x)} d :
  positive_counts d → sum_values (filter P d) ≤ sum_values d.
Proof.
  induction d as [|k c d Hk IH] using map_ind; intros Hd.
  - by rewrite map_filter_empty.
  - apply map_Forall_insert in Hd as [Hc Hd]; [|done].
    specialize (IH Hd). rewrite (sum_values_insert d) by done.
    destruct (decide (P (k, c))) as [HP|HP].
    + rewrite map_filter_insert_True by done.
      rewrite sum_values_insert; [lia|].
      by rewrite map_lookup_filter_None; left.
    + rewrite map_filter_insert_not' by (done || by rewrite Hk).
      lia.
Qed.

(** A bucket that the filter drops is missing from the sum. *)
Lemma sum_values_filter_drop (P : Qc * Z → Prop) `{!∀ x, Decision (P x)}
    d k c :
  positive_counts d → d !! k = Some c → ¬ P (k, c) →
  sum_values (filter P d) ≤ sum_values d - c.
Proof.
  intros Hd Hk HP. rewrite (sum_values_delete d k c Hk).
  rewrite <-(insert_delete_id d k c) at 1 by done.
  rewrite map_filter_insert_not' by
    (done || by rewrite lookup_delete_eq).
  assert (positive_counts (delete k d)) as Hd'.
  { intros j x [_ Hj]%lookup_delete_Some. by apply (Hd j x). }
  pose proof (sum_values_filter P (delete k d) Hd'). lia.
Qed.

Lemma sum_values_cleanup d w now :
  positive_counts d → sum_values (_cleanup_expired_requests d w now) ≤ sum_values d.
Proof. apply sum_values_filter. Qed.

Lemma cleanup_empty w now : _cleanup_expired_requests ∅ w now = ∅.
Proof. apply map_filter_empty. Qed.

Lemma cleanup_id d w now :
  (∀ k c, d !! k = Some c → (now - k ≤ Qc_of_Z w)%Qc) →
  _cleanup_expired_requests d w now = d.
Proof.
  intros Hd. unfold _cleanup_expired_requests. apply map_filter_id.
  intros k c Hk. simpl. by apply (Hd k c).
Qed.

Lemma cleanup_lookup_is_Some d w now k :
  is_Some (_cleanup_expired_requests d w now !! k) → is_Some (d !! k).
Proof. intros [c [Hc _]%map_lookup_filter_Some]. eauto. Qed.

Lemma contains_true {K V} `{Countable K} (k : K) (d : gmap K V) :
  contains k d = true → ∃ v, d !! k = Some v.
Proof. unfold contains. by intros ?%bool_decide_eq_true. Qed.

Lemma contains_false {K V} `{Countable K} (k : K) (d : gmap K V) :
  contains k d = false → d !! k = None.
Proof.
  unfold contains. intros Hk%bool_decide_eq_false.
  by apply eq_None_not_Some.
Qed.

Lemma track_lookup {K} `{Countable K} (k : K) (d : gmap K buckets) :
  track k d !! k = Some (default ∅ (d !! k)).
Proof.
  unfold track. destruct (contains k d) eqn:Hk.
  - apply contains_true in Hk as [v Hv]. by rewrite Hv.
  - apply contains_false in Hk. by rewrite Hk, lookup_insert_eq.
Qed.

Lemma track_lookup_ne {K} `{Countable K} (k j : K) (d : gmap K buckets) :
  k ≠ j → track k d !! j = d !! j.
Proof.
  intros Hne. unfold track. destruct (contains k d); [done|].
  by rewrite lookup_insert_ne.
Qed.

(** ** Facts about clock readings *)

Lemma Qc_of_Z_this n : this (Qc_of_Z n) = inject_Z n.
Proof. reflexivity. Qed.

Ltac qc_lra :=
  unfold Qcle, Qclt, Qcminus, Qcplus, Qcopp in *;
  repeat match goal with
    | H : context [this (Q2Qc _)] |- _ => simpl (this (Q2Qc _)) in H
    | |- context [this (Q2Qc _)] => simpl (this (Q2Qc _))
    end;
  rewrite ?Qc_of_Z_this in *;
  repeat match goal with
    | H : context [Qred _] |- _ => rewrite !Qred_correct in H
    end;
  rewrite ?Qred_correct;
  lra.

(** Two readings taken inside one window [[t0, t0 + w]] are at most
    [w] apart. *)
Lemma within_window (t0 a b : Qc) (w : Z) :
  (t0 ≤ a)%Qc → (b ≤ t0 + Qc_of_Z w)%Qc → (b - a ≤ Qc_of_Z w)%Qc.
Proof. intros. qc_lra. Qed.

Lemma beyond_window (a b : Qc) (w w' : Z) :
  w < w' → (a + Qc_of_Z w' ≤ b)%Qc → ¬ (b - a ≤ Qc_of_Z w)%Qc.
Proof.
  intros Hw Hab Hle. assert (inject_Z w < inject_Z w')%Q as Hq.
  { by rewrite <-Zlt_Qlt. }
  qc_lra.
Qed.

Lemma cleanup_singleton_within k c w now :
  (now - k ≤ Qc_of_Z w)%Qc →
  _cleanup_expired_requests {[ k := c ]} w now = {[ k := c ]}.
Proof.
  intros Hk. apply cleanup_id. intros j x [-> ->]%lookup_singleton_Some.
  done.
Qed.

Lemma since_singleton t0 c : since t0 {[ t0 := c ]}.
Proof. intros k x [<- _]%lookup_singleton_Some. apply Qcle_refl. Qed.

Lemma since_increment t0 d now :
  since t0 d → (t0 ≤ now)%Qc → since t0 (increment d now).
Proof.
  intros Hd Hnow k c. unfold increment.
  intros [[<- _]|[_ Hk]]%lookup_insert_Some; [done|]. by apply (Hd k c).
Qed.

Lemma cleanup_within t0 w now d :
  since t0 d → within t0 w now → _cleanup_expired_requests d w now = d.
Proof.
  intros Hd [_ Hnow]. apply cleanup_id. intros k c Hk.
  apply (within_window t0); [by apply (Hd k c)|done].
Qed.

Lemma cleanup_stale d w now :
  stale w now d → _cleanup_expired_requests d w now = ∅.
Proof.
  intros Hd. apply map_eq. intros k. rewrite lookup_empty.
  apply map_lookup_filter_None. right. intros c Hc. by apply (Hd k c).
Qed.

(** A bucket that is a second past the window does not pass the test
    of the sweep. *)
Lemma second_past_window (now k : Qc) (w : Z) :
  (k + Qc_of_Z (w + 1) ≤ now)%Qc → ¬ (now - k ≤ Qc_of_Z w)%Qc.
Proof.
  intros Hk Hle.
  assert (inject_Z (w + 1) == inject_Z w + 1)%Q as Hq.
  { by rewrite inject_Z_plus. }
  qc_lra.
Qed.

Lemma long_expired_stale w now d : long_expired w now d → stale w now d.
Proof. intros Hd k c Hk. by apply second_past_window, (Hd k c). Qed.

Lemma long_expired_empty w now : long_expired w now ∅.
Proof. intros k c. by rewrite lookup_empty. Qed.

Lemma long_expired_singleton w now k c :
  (k + Qc_of_Z (w + 1) ≤ now)%Qc → long_expired w now {[ k := c ]}.
Proof. by intros Hk k' c' [<- _]%lookup_singleton_Some. Qed.

Lemma cleanup_long_expired d w now :
  long_expired w now d → _cleanup_expired_requests d w now = ∅.
Proof. intros Hd. by apply cleanup_stale, long_expired_stale. Qed.

Ltac within_readings :=
  repeat (apply Forall_cons; split; [split; by vm_compute|]);
  by apply Forall_nil.

(** ** The operations, run *)

Ltac unfold_monad :=
  unfold getitem, call_func in *;
  unfold mbind, M_bind, bind, mret, M_ret, ret, get, put,
    logger_warning, raise in *.

Lemma user_rate_limiting_run now u s :
  user_rate_limiting now u s =
    let '(ok, um) :=
      admit_key (user_limit s) (user_window s) now u (user_requests s) in
    (Return ok, set_user_requests um s, if ok then [] else user_warning u).
Proof.
  unfold user_rate_limiting, admit_key, track. unfold_monad.
  destruct u as [u|]; simpl; [|by destruct s].
  destruct (contains u (user_requests s)) eqn:Hu; simpl.
  - apply contains_true in Hu as [d Hd]. rewrite Hd. simpl.
    destruct (sum_values _ >=? user_limit s); simpl; [by destruct s|done].
  - apply contains_false in Hu. rewrite lookup_insert_eq, Hu. simpl.
    destruct (sum_values _ >=? user_limit s); simpl; [done|].
    by rewrite insert_insert_eq.
Qed.

Lemma ip_rate_limiting_run now i s :
  ip_rate_limiting now i s =
    let '(ok, im) :=
      admit_key (ip_limit s) (ip_window s) now i (ip_requests s) in
    (Return ok, set_ip_requests im s, if ok then [] else ip_warning i).
Proof.
  unfold ip_rate_limiting, admit_key, track. unfold_monad.
  destruct i as [i|]; simpl; [|by destruct s].
  destruct (contains i (ip_requests s)) eqn:Hi; simpl.
  - apply contains_true in Hi as [d Hd]. rewrite Hd. simpl.
    destruct (sum_values _ >=? ip_limit s); simpl; [by destruct s|done].
  - apply contains_false in Hi. rewrite lookup_insert_eq, Hi. simpl.
    destruct (sum_values _ >=? ip_limit s); simpl; [done|].
    by rewrite insert_insert_eq.
Qed.

(** [is_allowed] never raises; it is the global block followed by the
    user block and the IP block, each narrower block being skipped once
    a wider one has denied. *)
Lemma is_allowed_run now u i s :
  is_allowed now u i s =
    let g := _cleanup_expired_requests (global_requests s)
               (global_window s) now in
    if sum_values g >=? global_limit s then
      (Return false, set_global_requests g s,
       ["Global rate limit exceeded"])
    else
      let s1 := set_global_requests (increment g now) s in
      let '(user_ok, um) :=
        admit_key (user_limit s) (user_window s) now u (user_requests s) in
      let s2 := set_user_requests um s1 in
      if user_ok then
        let '(ip_ok, im) :=
          admit_key (ip_limit s) (ip_window s) now i (ip_requests s) in
        (Return ip_ok, set_ip_requests im s2,
         if ip_ok then [] else ip_warning i)
      else (Return false, s2, user_warning u).
Proof.
  unfold is_allowed.
  unfold_monad. simpl.
  destruct (sum_values _ >=? global_limit s); [done|]. simpl.
  rewrite user_rate_limiting_run. simpl.
  destruct (admit_key (user_limit s) _ _ _ _) as [[] um]; simpl.
  - rewrite ip_rate_limiting_run. simpl.
    by destruct (admit_key (ip_limit s) _ _ _ _) as [[] im]; simpl;
      rewrite ?app_nil_r.
  - by rewrite app_nil_r.
Qed.

(** [get_wait_time] never raises, logs nothing and leaves the limiter
    as it found it. *)
Lemma get_wait_time_run now u i s :
  get_wait_time now u i s =
    let w0 := scope_wait (global_limit s) (global_window s) now 0
                (global_requests s) in
    let w1 := from_option (scope_wait (user_limit s) (user_window s) now w0)
                w0 (u ≫= λ k, user_requests s !! k) in
    let w2 := from_option (scope_wait (ip_limit s) (ip_window s) now w1)
                w1 (i ≫= λ k, ip_requests s !! k) in
    (Return w2, s, []).
Proof.
  unfold get_wait_time, scope_wait. unfold_monad. simpl.
  destruct u as [u|]; simpl.
  - destruct (contains u (user_requests s)) eqn:Hu.
    + apply contains_true in Hu as [d Hd]. rewrite Hd. simpl.
      destruct (sum_values (_cleanup_expired_requests d _ _) >=? _); simpl.
      all: destruct i as [i|]; simpl; [|done..].
      all: destruct (contains i (ip_requests s)) eqn:Hi;
        [apply contains_true in Hi as [d' Hd']
        |apply contains_false in Hi as Hd']; rewrite Hd'; simpl; [|done].
      all: by destruct (sum_values (_cleanup_expired_requests d' _ _) >=? _).
    + apply contains_false in Hu. rewrite Hu. simpl.
      destruct i as [i|]; simpl; [|done].
      destruct (contains i (ip_requests s)) eqn:Hi;
        [apply contains_true in Hi as [d' Hd']
        |apply contains_false in Hi as Hd']; rewrite Hd'; simpl; [|done].
      by destruct (sum_values (_cleanup_expired_requests d' _ _) >=? _).
  - destruct i as [i|]; simpl; [|done].
    destruct (contains i (ip_requests s)) eqn:Hi;
      [apply contains_true in Hi as [d' Hd']
      |apply contains_false in Hi as Hd']; rewrite Hd'; simpl; [|done].
    by destruct (sum_values (_cleanup_expired_requests d' _ _) >=? _).
Qed.

(** [wrapper] raises exactly when the swept dict is at or over the
    limit, and then without running the callable. *)
Lemma wrapper_run {W A B} limit window (func : callable W A B) now args st :
  wrapper limit window func now args st =
    let reqs := _cleanup_expired_requests (requests st) window now in
    if sum_values reqs >=? limit then
      (Raise (RuntimeError "Rate limit exceeded"), set_requests reqs st,
       ["Function rate limit exceeded: " +:+ __name__ func])
    else
      match call func args (world st) with
      | (r, w, l) => (r, mkThrottled (increment reqs now) w, l)
      end.
Proof.
  unfold wrapper, _cleanup_expired_requests. unfold_monad. simpl.
  destruct (sum_values _ >=? limit); [done|]. simpl.
  by destruct (call func args (world st)) as [[r w] l].
Qed.

Lemma is_allowed_global_requests now u i s :
  let g := _cleanup_expired_requests (global_requests s)
             (global_window s) now in
  global_requests (is_allowed now u i s).1.2 =
    if sum_values g >=? global_limit s then g else increment g now.
Proof.
  rewrite is_allowed_run. cbv zeta.
  destruct (sum_values _ >=? global_limit s); [done|].
  destruct (admit_key (user_limit s) _ _ _ _) as [[] um]; [|done].
  by destruct (admit_key (ip_limit s) _ _ _ _) as [ok im].
Qed.

Lemma is_allowed_config now u i s :
  config (is_allowed now u i s).1.2 = config s.
Proof.
  rewrite is_allowed_run. cbv zeta.
  destruct (sum_values _ >=? global_limit s); [done|].
  destruct (admit_key (user_limit s) _ _ _ _) as [[] um]; [|done].
  by destruct (admit_key (ip_limit s) _ _ _ _) as [ok im].
Qed.

Lemma admit_key_denied {K} `{Countable K} limit window now (k : K) d :
  limit ≤ sum_values
    (_cleanup_expired_requests (default ∅ (d !! k)) window now) →
  admit_key limit window now (Some k) d = (false, track k d).
Proof.
  intros Hle. unfold admit_key.
  destruct (Z.geb_spec
    (sum_values (_cleanup_expired_requests (default ∅ (d !! k)) window now))
    limit); [done|lia].
Qed.

Lemma admit_key_admitted {K} `{Countable K} limit window now (k : K) d :
  sum_values (_cleanup_expired_requests (default ∅ (d !! k)) window now)
    < limit →
  admit_key limit window now (Some k) d =
    (true, <[k := increment (_cleanup_expired_requests (default ∅ (d !! k))
                               window now) now]> d).
Proof.
  intros Hlt. unfold admit_key.
  destruct (Z.geb_spec
    (sum_values (_cleanup_expired_requests (default ∅ (d !! k)) window now))
    limit); [lia|done].
Qed.

Lemma admit_key_true_inv {K} `{Countable K} limit window now (k : K) d m :
  admit_key limit window now (Some k) d = (true, m) →
  sum_values (_cleanup_expired_requests (default ∅ (d !! k)) window now)
    < limit.
Proof.
  unfold admit_key.
  destruct (Z.geb_spec
    (sum_values (_cleanup_expired_requests (default ∅ (d !! k)) window now))
    limit); [done|]. intros _. lia.
Qed.

Lemma noop_returns name : returns (noop name).
Proof. intros [] []. by eexists _, _, _. Qed.

(** ** Calls made inside one window *)

Lemma bucket_step_bound d w now k :
  positive_counts d → sum_values d ≤ k →
  positive_counts (increment (_cleanup_expired_requests d w now) now) ∧
  sum_values (increment (_cleanup_expired_requests d w now) now) ≤ k + 1.
Proof.
  intros Hd Hk. split.
  - by apply positive_counts_increment, positive_counts_cleanup.
  - rewrite sum_values_increment.
    pose proof (sum_values_cleanup d w now Hd). lia.
Qed.

Lemma bucket_step_exact t0 d w now k :
  sum_values d = k → since t0 d → within t0 w now →
  sum_values (increment (_cleanup_expired_requests d w now) now) = k + 1 ∧
  since t0 (increment (_cleanup_expired_requests d w now) now).
Proof.
  intros Hk Hd Hnow. rewrite (cleanup_within t0) by done. split.
  - rewrite sum_values_increment. lia.
  - apply since_increment; [done|]. by destruct Hnow.
Qed.

Lemma admit_key_counted {K} `{Countable K} limit window now
    (key : option K) (m : gmap K buckets) k :
  (∀ x, key = Some x → sum_values (default ∅ (m !! x)) ≤ k ∧
                        positive_counts (default ∅ (m !! x))) →
  k < limit →
  ∃ m', admit_key limit window now key m = (true, m') ∧
    (λ x, default ∅ (m' !! x)) <$> key =
    (λ x, increment (_cleanup_expired_requests (default ∅ (m !! x))
                       window now) now) <$> key.
Proof.
  intros Hkey Hk. destruct key as [x|]; [|by eexists].
  destruct (Hkey x eq_refl) as [Hsum Hpos].
  pose proof (sum_values_cleanup (default ∅ (m !! x)) window now Hpos).
  rewrite admit_key_admitted by lia. eexists. split; [done|]. simpl.
  by rewrite lookup_insert_eq.
Qed.

Lemma is_allowed_counted_step X u i t0 k s now :
  counted X u i t0 k s →
  (∀ Y, k < scope_limit Y s) →
  within t0 (scope_window X s) now →
  ∃ s', is_allowed now u i s = (Return true, s', []) ∧
    counted X u i t0 (k + 1) s' ∧ config s' = config s.
Proof.
  intros [Hall HX] Hlim Hnow.
  destruct (Hall Global _ eq_refl) as [Hgpos Hgsum].
  pose proof (sum_values_cleanup (global_requests s) (global_window s) now
                Hgpos) as Hgc.
  pose proof (Hlim Global) as Hgl. pose proof (Hlim PerUser) as Hul.
  pose proof (Hlim PerIP) as Hil. simpl in Hgl, Hul, Hil.
  rewrite is_allowed_run. cbv zeta. rewrite geb_false by lia.
  destruct (admit_key_counted (user_limit s) (user_window s) now u
              (user_requests s) k) as (um & -> & Hum); [|done|].
  { intros x ->. by destruct (Hall PerUser _ eq_refl). }
  destruct (admit_key_counted (ip_limit s) (ip_window s) now i
              (ip_requests s) k) as (im & -> & Him); [|done|].
  { intros x ->. by destruct (Hall PerIP _ eq_refl). }
  eexists. split; [done|]. split; [|done]. split.
  - intros Y d' HY. destruct Y; simpl in HY.
    + injection HY as <-. by apply bucket_step_bound.
    + rewrite Hum in HY. destruct u as [x|]; [|done].
      injection HY as <-. destruct (Hall PerUser _ eq_refl).
      by apply bucket_step_bound.
    + rewrite Him in HY. destruct i as [x|]; [|done].
      injection HY as <-. destruct (Hall PerIP _ eq_refl).
      by apply bucket_step_bound.
  - intros d' Hd'. destruct X; simpl in Hd', Hnow.
    + injection Hd' as <-. destruct (HX _ eq_refl).
      by apply bucket_step_exact.
    + rewrite Hum in Hd'. destruct u as [x|]; [|done].
      injection Hd' as <-. destruct (HX _ eq_refl).
      by apply bucket_step_exact.
    + rewrite Him in Hd'. destruct i as [x|]; [|done].
      injection Hd' as <-. destruct (HX _ eq_refl).
      by apply bucket_step_exact.
Qed.

Lemma scope_limit_config X s s' :
  config s' = config s →
  scope_limit X s' = scope_limit X s ∧ scope_window X s' = scope_window X s.
Proof. unfold config. intros [=]. by destruct X. Qed.

Lemma attempts_counted X u i t0 ts : ∀ k s,
  counted X u i t0 k s →
  (∀ Y, k + Z.of_nat (length ts) ≤ scope_limit Y s) →
  Forall (within t0 (scope_window X s)) ts →
  ∃ s', attempts (map (λ now, is_allowed now u i) ts) s
          = (replicate (length ts) (Return true), s') ∧
    counted X u i t0 (k + Z.of_nat (length ts)) s' ∧ config s' = config s.
Proof.
  induction ts as [|now ts IH]; intros k s Hc Hlim Hts.
  - exists s. simpl. by rewrite Z.add_0_r.
  - apply Forall_cons in Hts as [Hnow Hts].
    destruct (is_allowed_counted_step X u i t0 k s now) as (s1 & Hrun & Hc1 & Hcfg);
      [done| |done|].
    { intros Y. specialize (Hlim Y). simpl in Hlim. lia. }
    destruct (IH (k + 1) s1) as (s' & Hrest & Hc' & Hcfg'); [done| |  |].
    { intros Y. specialize (Hlim Y).
      destruct (scope_limit_config Y s s1 Hcfg) as [-> _].
      simpl in Hlim. lia. }
    { by destruct (scope_limit_config X s s1 Hcfg) as [_ ->]. }
    exists s'. simpl. rewrite Hrun, Hrest. split; [done|].
    split; [|congruence].
    by replace (k + Z.of_nat (S (length ts)))
      with (k + 1 + Z.of_nat (length ts)) by lia.
Qed.

Lemma is_allowed_counted_denied X u i t0 s now :
  counted X u i t0 (scope_limit X s) s →
  (∀ Y, Y ≠ X → scope_limit X s < scope_limit Y s) →
  is_Some (scope_buckets X u i s) →
  within t0 (scope_window X s) now →
  (is_allowed now u i s).1.1 = Return false ∧
  scope_buckets X u i (is_allowed now u i s).1.2 = scope_buckets X u i s.
Proof.
  intros [Hall HX] Hlim [d Hd] Hnow.
  destruct (HX d Hd) as [Hsum Hsince].
  pose proof (cleanup_within t0 _ now d Hsince Hnow) as Hclean.
  rewrite is_allowed_run. cbv zeta.
  destruct X; simpl in *.
  - injection Hd as <-. rewrite Hclean. rewrite geb_true by lia. done.
  - destruct u as [x|]; [|done]. injection Hd as <-.
    destruct (Hall Global _ eq_refl) as [Hgpos Hgsum].
    pose proof (sum_values_cleanup (global_requests s) (global_window s)
                  now Hgpos).
    pose proof (Hlim Global ltac:(done)) as Hgl. simpl in Hgl.
    rewrite geb_false by lia.
    rewrite admit_key_denied; [|rewrite Hclean; lia]. simpl.
    by rewrite track_lookup.
  - destruct i as [x|]; [|done]. injection Hd as <-.
    destruct (Hall Global _ eq_refl) as [Hgpos Hgsum].
    pose proof (sum_values_cleanup (global_requests s) (global_window s)
                  now Hgpos).
    pose proof (Hlim Global ltac:(done)) as Hgl. simpl in Hgl.
    rewrite geb_false by lia.
    destruct (admit_key_counted (user_limit s) (user_window s) now u
                (user_requests s) (ip_limit s)) as (um & -> & Hum).
    { intros y ->. by destruct (Hall PerUser _ eq_refl). }
    { by apply (Hlim PerUser). }
    simpl.
    rewrite admit_key_denied; [|rewrite Hclean; lia]. simpl.
    by rewrite track_lookup.
Qed.

Lemma counted_init X u i t0 gl gw ul uw il iw :
  counted X u i t0 0 (init gl gw ul uw il iw).
Proof.
  assert (∀ Y d, scope_buckets Y u i (init gl gw ul uw il iw) = Some d →
            d = ∅) as Hempty.
  { intros Y d. destruct Y; simpl.
    - by intros [= <-].
    - destruct u; simpl; [|done]. rewrite lookup_empty. by intros [= <-].
    - destruct i; simpl; [|done]. rewrite lookup_empty. by intros [= <-]. }
  split.
  - intros Y d ->%Hempty. rewrite sum_values_empty.
    split; [apply positive_counts_empty|done].
  - intros d ->%Hempty. rewrite sum_values_empty. split; [done|].
    intros k c. by rewrite lookup_empty.
Qed.

Lemma scope_buckets_is_Some X u i s s' :
  is_Some (scope_buckets X u i s) → is_Some (scope_buckets X u i s').
Proof. destruct X, u, i; simpl; by intros [d [=]] || eauto. Qed.

(** The same for the throttle, whose only scope is its own dict. *)
Lemma wrapper_counted_step {W A B} limit window (func : callable W A B)
    now args st t0 k :
  returns func →
  positive_counts (requests st) → sum_values (requests st) = k →
  since t0 (requests st) → k < limit → within t0 window now →
  ∃ b st' l, wrapper limit window func now args st = (Return b, st', l) ∧
    positive_counts (requests st') ∧ sum_values (requests st') = k + 1 ∧
    since t0 (requests st').
Proof.
  intros Hret Hpos Hsum Hsince Hk Hnow. rewrite wrapper_run. cbv zeta.
  rewrite (cleanup_within t0) by done. rewrite geb_false by lia.
  destruct (Hret args (world st)) as (b & w' & l & ->).
  eexists _, _, _. split; [done|]. simpl. split_and!.
  - by apply positive_counts_increment.
  - rewrite sum_values_increment. lia.
  - apply since_increment; [done|]. by destruct Hnow.
Qed.

Lemma wrapper_attempts_counted {W A B} limit window (func : callable W A B)
    args t0 ts : ∀ k st,
  returns func →
  positive_counts (requests st) → sum_values (requests st) = k →
  since t0 (requests st) → k + Z.of_nat (length ts) ≤ limit →
  Forall (within t0 window) ts →
  ∃ rs st', attempts (map (λ now, wrapper limit window func now args) ts) st
              = (rs, st') ∧
    Forall (λ o, ∃ b, o = Return b) rs ∧ length rs = length ts ∧
    positive_counts (requests st') ∧
    sum_values (requests st') = k + Z.of_nat (length ts) ∧
    since t0 (requests st').
Proof.
  induction ts as [|now ts IH]; intros k st Hret Hpos Hsum Hsince Hk Hts.
  - exists [], st. simpl. split_and!; try done. lia.
  - apply Forall_cons in Hts as [Hnow Hts]. simpl in Hk.
    destruct (wrapper_counted_step limit window func now args st t0 k)
      as (b & st1 & l & Hrun & Hpos1 & Hsum1 & Hsince1);
      [done|done|done|done|lia|done|].
    destruct (IH (k + 1) st1)
      as (rs & st' & Hrest & Hrs & Hlen & Hpos' & Hsum' & Hsince');
      [done|done|done|done|lia|done|].
    exists (Return b :: rs), st'. simpl. rewrite Hrun, Hrest.
    split_and!; try done.
    + apply Forall_cons. eauto.
    + by rewrite Hlen.
    + lia.
Qed.

Lemma throttle_scenario name (t1 t2 t3 t4 t5 : Qc) :
  within t1 10 t2 → within t1 10 t3 → within t1 10 t4 →
  (t1 + Qc_of_Z 11 ≤ t5)%Qc →
  (attempts (map (λ now, rate_limit 3 10 (noop name) now ())
               [t1; t2; t3; t4; t5]) (decorated ())).1
  = [Return (); Return (); Return ();
     Raise (RuntimeError "Rate limit exceeded"); Return ()].
Proof.
  intros H2 H3 H4 H5. unfold rate_limit, decorated. simpl.
  (* call 1 *)
  rewrite wrapper_run. simpl. rewrite cleanup_empty, sum_values_empty. simpl.
  rewrite increment_empty.
  (* call 2 *)
  rewrite wrapper_run. simpl.
  rewrite (cleanup_within t1), sum_values_singleton
    by (done || apply since_singleton). simpl.
  set (m2 := increment {[ t1 := 1 ]} t2).
  assert (positive_counts m2 ∧ sum_values m2 = 2 ∧ since t1 m2
          ∧ is_Some (m2 !! t1)) as (Hp2 & Hs2 & Hsince2 & Hk2).
  { subst m2. split_and!.
    - apply positive_counts_increment. by apply map_Forall_singleton.
    - by rewrite sum_values_increment, sum_values_singleton.
    - apply since_increment; [apply since_singleton|by destruct H2].
    - apply increment_lookup_is_Some. rewrite lookup_singleton_eq. eauto. }
  (* call 3 *)
  rewrite wrapper_run. simpl.
  rewrite (cleanup_within t1), Hs2 by done. simpl.
  set (m3 := increment m2 t3).
  assert (positive_counts m3 ∧ sum_values m3 = 3 ∧ since t1 m3
          ∧ is_Some (m3 !! t1)) as (Hp3 & Hs3 & Hsince3 & [c Hk3]).
  { subst m3. split_and!.
    - by apply positive_counts_increment.
    - rewrite sum_values_increment. lia.
    - apply since_increment; [done|by destruct H3].
    - by apply increment_lookup_is_Some. }
  (* call 4 *)
  rewrite wrapper_run. simpl.
  rewrite (cleanup_within t1), Hs3 by done. simpl.
  (* call 5 *)
  rewrite wrapper_run. simpl.
  assert (sum_values (_cleanup_expired_requests m3 10 t5) < 3) as Hs5.
  { pose proof (Hp3 t1 c Hk3) as Hc. simpl in Hc.
    pose proof (sum_values_filter_drop
      (λ kv, (t5 - kv.1 ≤ Qc_of_Z 10)%Qc) m3 t1 c Hp3 Hk3) as Hdrop.
    unfold _cleanup_expired_requests.
    assert (¬ (t5 - t1 ≤ Qc_of_Z 10)%Qc) as Hout
      by (by apply (beyond_window t1 t5 10 11)).
    specialize (Hdrop Hout). lia. }
  by rewrite geb_false.
Qed.

(** ** The invariant of the limiter *)

Lemma bounded_empty limit : 0 ≤ limit → bounded limit ∅.
Proof.
  intros Hl. split; [apply positive_counts_empty|].
  by rewrite sum_values_empty.
Qed.

Lemma bounded_cleanup limit d w now :
  bounded limit d → bounded limit (_cleanup_expired_requests d w now).
Proof.
  intros [Hpos Hsum]. split; [by apply positive_counts_cleanup|].
  pose proof (sum_values_cleanup d w now Hpos). lia.
Qed.

Lemma bounded_admit limit d w now :
  bounded limit d →
  bounded limit
    (if sum_values (_cleanup_expired_requests d w now) >=? limit
     then _cleanup_expired_requests d w now
     else increment (_cleanup_expired_requests d w now) now).
Proof.
  intros Hd. pose proof (bounded_cleanup limit d w now Hd) as [Hpos Hsum].
  destruct (Z.geb_spec (sum_values (_cleanup_expired_requests d w now)) limit).
  - done.
  - split; [by apply positive_counts_increment|].
    rewrite sum_values_increment. lia.
Qed.

Lemma admit_key_bounded {K} `{Countable K} limit window now
    (key : option K) (m m' : gmap K buckets) ok :
  0 ≤ limit →
  (∀ x d, m !! x = Some d → bounded limit d) →
  admit_key limit window now key m = (ok, m') →
  ∀ x d, m' !! x = Some d → bounded limit d.
Proof.
  intros Hl Hm. unfold admit_key. destruct key as [y|]; [|by intros [= _ <-]].
  assert (bounded limit (default ∅ (m !! y))) as Hy.
  { destruct (m !! y) as [d|] eqn:Hd; simpl; [by apply (Hm y)|].
    by apply bounded_empty. }
  pose proof (bounded_admit limit _ window now Hy) as Hadm.
  destruct (_ >=? limit); intros [= _ <-] x d.
  - destruct (decide (y = x)) as [->|Hne].
    + rewrite track_lookup. by intros [= <-].
    + rewrite track_lookup_ne by done. apply Hm.
  - destruct (decide (y = x)) as [->|Hne].
    + rewrite lookup_insert_eq. by intros [= <-].
    + rewrite lookup_insert_ne by done. apply Hm.
Qed.

Lemma limiter_inv_init gl gw ul uw il iw :
  0 ≤ gl → limiter_inv (init gl gw ul uw il iw).
Proof.
  intros Hgl. split_and!; simpl.
  - by apply bounded_empty.
  - intros uid d. by rewrite lookup_empty.
  - intros ip d. by rewrite lookup_empty.
Qed.

Lemma is_allowed_inv now u i s :
  0 ≤ user_limit s → 0 ≤ ip_limit s →
  limiter_inv s → limiter_inv (is_allowed now u i s).1.2.
Proof.
  intros Hul Hil (Hg & Hu & Hi).
  pose proof (bounded_admit _ _ (global_window s) now Hg) as Hg'.
  pose proof (bounded_cleanup _ _ (global_window s) now Hg) as Hgc.
  rewrite is_allowed_run. cbv zeta.
  destruct (sum_values _ >=? global_limit s); [done|].
  destruct (admit_key (user_limit s) _ _ _ _) as [uok um] eqn:Hum.
  pose proof (admit_key_bounded _ _ _ _ _ _ _ Hul Hu Hum) as Hu'.
  destruct uok; [|done].
  destruct (admit_key (ip_limit s) _ _ _ _) as [iok im] eqn:Him.
  pose proof (admit_key_bounded _ _ _ _ _ _ _ Hil Hi Him) as Hi'.
  done.
Qed.

Lemma run_operation_inv op s :
  0 ≤ user_limit s → 0 ≤ ip_limit s →
  limiter_inv s →
  limiter_inv (run_operation s op) ∧ config (run_operation s op) = config s.
Proof.
  intros Hul Hil Hinv. destruct op as [now u i|now u i]; simpl.
  - split; [by apply is_allowed_inv|apply is_allowed_config].
  - by rewrite get_wait_time_run.
Qed.

Lemma run_operations_inv ops : ∀ s,
  0 ≤ user_limit s → 0 ≤ ip_limit s →
  limiter_inv s →
  limiter_inv (run_operations ops s) ∧ config (run_operations ops s) = config s.
Proof.
  induction ops as [|op ops IH]; intros s Hul Hil Hinv; [done|]. simpl.
  destruct (run_operation_inv op s Hul Hil Hinv) as [Hinv1 Hcfg1].
  assert (user_limit (run_operation s op) = user_limit s ∧
          ip_limit (run_operation s op) = ip_limit s) as [Hul1 Hil1].
  { unfold config in Hcfg1. by injection Hcfg1 as _ _ -> _ -> _. }
  destruct (IH (run_operation s op)) as [Hinv' Hcfg']; [lia|lia|done|].
  split; [done|congruence].
Qed.

Lemma sum_values_filter_full (P : Qc * Z → Prop) `{!∀ x, Decision (P x)} d :
  positive_counts d → sum_values d ≤ sum_values (filter P d) →
  filter P d = d.
Proof.
  intros Hpos Hsum. apply map_filter_id. intros k c Hk.
  destruct (decide (P (k, c))) as [|HP]; [done|].
  pose proof (sum_values_filter_drop P d k c Hpos Hk HP).
  pose proof (Hpos k c Hk) as Hc. simpl in Hc. lia.
Qed.

(** Under the invariant a key is denied only when all its stored
    buckets are live: the sweep that precedes a denial drops nothing. *)
Lemma denied_key_has_no_expired_bucket limit window now d :
  bounded limit d →
  limit ≤ sum_values (_cleanup_expired_requests d window now) →
  _cleanup_expired_requests d window now = d.
Proof.
  intros [Hpos Hsum] Hdenied. apply sum_values_filter_full; [done|].
  unfold _cleanup_expired_requests in Hdenied. lia.
Qed.

(** ** The advised wait *)

Lemma scope_wait_nonneg limit window now w d :
  0 ≤ w → 0 ≤ scope_wait limit window now w d.
Proof. unfold scope_wait. destruct (_ >=? _); lia. Qed.

Lemma scope_wait_is_max limit window now w d :
  0 ≤ w →
  scope_wait limit window now w d
    = w `max` estimated_wait limit window now d.
Proof. unfold scope_wait, estimated_wait. destruct (_ >=? _); lia. Qed.

Lemma estimated_wait_within limit window now t0 d :
  since t0 d → within t0 window now → limit ≤ sum_values d →
  estimated_wait limit window now d = window.
Proof.
  intros Hd Hnow Hsum. unfold estimated_wait.
  rewrite (cleanup_within t0) by done. by rewrite geb_true.
Qed.

Lemma estimated_wait_long_expired limit window now d :
  0 < limit → long_expired window now d →
  estimated_wait limit window now d = 0.
Proof.
  intros Hl Hd. unfold estimated_wait.
  by rewrite cleanup_long_expired, sum_values_empty, geb_false.
Qed.

Lemma scope_wait_admitted limit window now w d :
  sum_values (_cleanup_expired_requests d window now) < limit →
  scope_wait limit window now w d = w.
Proof. intros Hlt. unfold scope_wait. by rewrite geb_false. Qed.

(** ** Which keys a call records *)

Lemma admit_key_keys {K} `{Countable K} limit window now
    (key : option K) (m m' : gmap K buckets) ok x k :
  admit_key limit window now key m = (ok, m') →
  has_bucket m' x k → k = now ∨ has_bucket m x k.
Proof.
  unfold admit_key, has_bucket. destruct key as [y|]; [|intros [= _ <-]; eauto].
  destruct (_ >=? limit); intros [= _ <-].
  - destruct (decide (y = x)) as [->|Hne].
    + rewrite track_lookup. simpl.
      destruct (m !! x); simpl; [eauto|].
      rewrite lookup_empty. by intros [? [=]].
    + rewrite track_lookup_ne by done. eauto.
  - destruct (decide (y = x)) as [->|Hne].
    + rewrite lookup_insert_eq. simpl.
      intros [->|Hk%cleanup_lookup_is_Some]%increment_lookup_inv; [by left|].
      right. destruct (m !! x); simpl in *; [done|].
      rewrite lookup_empty in Hk. by destruct Hk.
    + rewrite lookup_insert_ne by done. eauto.
Qed.

Lemma admit_key_records {K} `{Countable K} limit window now
    (x : K) (m m' : gmap K buckets) :
  admit_key limit window now (Some x) m = (true, m') → has_bucket m' x now.
Proof.
  unfold admit_key, has_bucket. destruct (_ >=? limit); intros [= <-].
  rewrite lookup_insert_eq. simpl. apply increment_lookup_now.
Qed.

(** * The claims *)

(** C1. Every scope admits exactly its limit inside one window.  For
    each scope of the facade (global, per-user, per-IP) configured with
    limit [N], the other two scopes having room for more than [N]: from
    the empty limiter, [N] calls of [is_allowed] with the same keys, made
    at clock readings inside one window of that scope, are all admitted;
    with [N] calls counted for the key, one more call inside the same
    window is denied, and the denial leaves the buckets of that scope for
    the key as they were, so the count is still [N].  For the throttle
    [rate_limit(N, window)] around a callable that returns: from the
    empty dict, [N] calls inside one window all run the callable and
    return; one more call inside the window raises the rate-limit error
    and leaves the dict, hence its count [N], and the callable's world
    untouched. *)
Theorem limit_admits_exactly_n :
  (∀ X u i (N : nat) gl gw ul uw il iw ts t_last t0,
     let s0 := init gl gw ul uw il iw in
     is_Some (scope_buckets X u i s0) →
     scope_limit X s0 = Z.of_nat N →
     (∀ Y, Y ≠ X → Z.of_nat N < scope_limit Y s0) →
     length ts = N →
     Forall (within t0 (scope_window X s0)) (ts ++ [t_last]) →
     let r := attempts (map (λ now, is_allowed now u i) ts) s0 in
     r.1 = replicate N (Return true) ∧
     sum_values <$> scope_buckets X u i r.2 = Some (Z.of_nat N) ∧
     let r' := is_allowed t_last u i r.2 in
     r'.1.1 = Return false ∧
     scope_buckets X u i r'.1.2 = scope_buckets X u i r.2) ∧
  (∀ W A B (func : callable W A B) args (N : nat) window ts t_last t0 w,
     returns func →
     length ts = N →
     Forall (within t0 window) (ts ++ [t_last]) →
     let r := attempts
                (map (λ now, rate_limit (Z.of_nat N) window func now args) ts)
                (decorated w) in
     Forall (λ o, ∃ b, o = Return b) r.1 ∧ length r.1 = N ∧
     sum_values (requests r.2) = Z.of_nat N ∧
     let r' := rate_limit (Z.of_nat N) window func t_last args r.2 in
     r'.1.1 = Raise (RuntimeError "Rate limit exceeded") ∧
     r'.1.2 = r.2).
Proof.
  split.
  - intros X u i N gl gw ul uw il iw ts t_last t0 s0 Hkey HN Hother Hlen
      Hwithin r.
    apply Forall_app in Hwithin as [Hts Hlast].
    apply Forall_inv in Hlast.
    destruct (attempts_counted X u i t0 ts 0 s0)
      as (sN & Hrun & Hc & Hcfg); [apply counted_init| |done|].
    { intros Y. rewrite Hlen. destruct (decide (Y = X)) as [->|HY].
      - rewrite HN. lia.
      - specialize (Hother Y HY). lia. }
    rewrite Hlen, Z.add_0_l in Hc.
    subst r. rewrite Hrun, Hlen. simpl. split; [done|].
    destruct (scope_buckets_is_Some X u i s0 sN Hkey) as [d Hd].
    pose proof Hc as [_ HX]. destruct (HX d Hd) as [Hsum _].
    split; [by rewrite Hd; simpl; rewrite Hsum|].
    assert (∀ Y, scope_limit Y sN = scope_limit Y s0) as HlimN.
    { intros Y. by destruct (scope_limit_config Y s0 sN Hcfg). }
    apply (is_allowed_counted_denied X u i t0).
    + by rewrite HlimN, HN.
    + intros Y HY. rewrite !HlimN, HN. by apply Hother.
    + by exists d.
    + by destruct (scope_limit_config X s0 sN Hcfg) as [_ ->].
  - intros W A B func args N window ts t_last t0 w Hret Hlen Hwithin r.
    apply Forall_app in Hwithin as [Hts Hlast].
    apply Forall_inv in Hlast. unfold rate_limit in *.
    destruct (wrapper_attempts_counted (Z.of_nat N) window func args t0 ts
                0 (decorated w))
      as (rs & stN & Hrun & Hrs & Hlen' & Hpos & Hsum & Hsince);
      [done|apply positive_counts_empty|apply sum_values_empty| |lia|done|].
    { intros k c. simpl. by rewrite lookup_empty. }
    subst r. rewrite Hrun. simpl. rewrite Hlen, Z.add_0_l in Hsum.
    split; [done|]. split; [congruence|]. split; [done|].
    rewrite wrapper_run. cbv zeta. rewrite (cleanup_within t0) by done.
    rewrite geb_true by lia. simpl. split; [done|]. by destruct stN.
Qed.

(** The default limiter and one user calling from one address, ten
    times and once more, one call per second; a throttle of three calls
    per ten seconds around a no-op, called at seconds 0, 1, 2 and 3. *)
Lemma limit_admits_exactly_n_witness :
  (let r := attempts
              (map (λ now, is_allowed now (Some 42) (Some "10.0.0.1"))
                 (Qc_of_Z <$> [1; 2; 3; 4; 5; 6; 7; 8; 9; 10]))
              default_limiter in
   r.1 = replicate 10 (Return true) ∧
   (is_allowed (Qc_of_Z 11) (Some 42) (Some "10.0.0.1") r.2).1.1
     = Return false) ∧
  (let r := attempts
              (map (λ now, rate_limit 3 10 (noop "ping") now ())
                 (Qc_of_Z <$> [0; 1; 2]))
              (decorated ()) in
   length r.1 = 3%nat ∧
   (rate_limit 3 10 (noop "ping") (Qc_of_Z 3) () r.2).1.1
     = Raise (RuntimeError "Rate limit exceeded")).
Proof.
  destruct limit_admits_exactly_n as [Hfacade Hthrottle]. split.
  - pose proof (Hfacade PerUser (Some 42) (Some "10.0.0.1") 10%nat
                  100 60 10 60 50 60
                  (Qc_of_Z <$> [1; 2; 3; 4; 5; 6; 7; 8; 9; 10])
                  (Qc_of_Z 11) (Qc_of_Z 1)) as H.
    cbv zeta in H. destruct H as (Hok & _ & Hdenied & _).
    + by eexists.
    + reflexivity.
    + intros [] HY; simpl; try lia; congruence.
    + reflexivity.
    + simpl. within_readings.
    + split; [exact Hok|exact Hdenied].
  - pose proof (Hthrottle unit unit unit (noop "ping") () 3%nat 10
                  (Qc_of_Z <$> [0; 1; 2]) (Qc_of_Z 3) (Qc_of_Z 0) ()) as H.
    cbv zeta in H. destruct H as (_ & Hlen & _ & Hraise & _).
    + apply noop_returns.
    + reflexivity.
    + simpl. within_readings.
    + split; [exact Hlen|exact Hraise].
Defined.

(** C2. [is_allowed] checks the global scope first and commits its
    increment before it looks at the narrower scopes: a call that the
    global scope denies returns [False] having touched only the global
    map, and a call that the global scope admits leaves the global count
    one higher whatever the user and IP scopes decide afterwards.  With
    global limit 100 per 60 s and user limit 1 per 60 s, two calls of one
    user inside the window return [True] then [False] and leave the
    global counter sum at 2. *)
Theorem global_quota_consumed_first :
  (∀ now u i s,
     let g := _cleanup_expired_requests (global_requests s)
                (global_window s) now in
     global_limit s ≤ sum_values g →
     is_allowed now u i s =
       (Return false, set_global_requests g s,
        ["Global rate limit exceeded"])) ∧
  (∀ now u i s,
     let g := _cleanup_expired_requests (global_requests s)
                (global_window s) now in
     sum_values g < global_limit s →
     global_requests (is_allowed now u i s).1.2 = increment g now ∧
     sum_values (global_requests (is_allowed now u i s).1.2)
       = sum_values g + 1) ∧
  (∀ (t1 t2 : Qc) (uid : Z) (ip : option string) (ip_limit ip_window : Z),
     (t2 - t1 ≤ Qc_of_Z 60)%Qc → 0 < ip_limit →
     let r := attempts [is_allowed t1 (Some uid) ip;
                        is_allowed t2 (Some uid) ip]
                (init 100 60 1 60 ip_limit ip_window) in
     r.1 = [Return true; Return false] ∧
     sum_values (global_requests r.2) = 2).
Proof.
  split_and!.
  - intros now u i s g Hg. rewrite is_allowed_run. cbv zeta. fold g.
    by rewrite geb_true.
  - intros now u i s g Hg. rewrite is_allowed_global_requests. cbv zeta.
    fold g. rewrite geb_false by done.
    split; [done|]. apply sum_values_increment.
  - intros t1 t2 uid ip il iw Ht Hil r. subst r. unfold attempts, init.
    rewrite is_allowed_run. simpl.
    rewrite !cleanup_empty, !sum_values_empty. simpl.
    rewrite admit_key_admitted
      by by rewrite lookup_empty, cleanup_empty, sum_values_empty.
    rewrite lookup_empty. simpl. rewrite cleanup_empty.
    assert (∃ im, admit_key il iw t1 ip ∅ = (true, im)) as [im ->].
    { destruct ip as [ip|]; [|by eexists].
      rewrite admit_key_admitted; [by eexists|].
      by rewrite lookup_empty, cleanup_empty, sum_values_empty. }
    rewrite is_allowed_run. simpl.
    rewrite !increment_empty, insert_empty.
    rewrite cleanup_singleton_within, sum_values_singleton by done. simpl.
    rewrite admit_key_denied.
    2: { rewrite lookup_singleton_eq. simpl.
         by rewrite cleanup_singleton_within, sum_values_singleton. }
    simpl. split; [done|].
    rewrite sum_values_increment, sum_values_singleton. done.
Qed.

(** Two calls of user 42 from one address, at seconds 1700000000 and
    1700000005. *)
Lemma global_quota_consumed_first_witness :
  let r := attempts [is_allowed (Qc_of_Z 1700000000) (Some 42) (Some "10.0.0.1");
                     is_allowed (Qc_of_Z 1700000005) (Some 42) (Some "10.0.0.1")]
             (init 100 60 1 60 50 60) in
  r.1 = [Return true; Return false] ∧
  sum_values (global_requests r.2) = 2.
Proof.
  destruct global_quota_consumed_first as (_ & _ & H).
  apply H; [by vm_compute | lia].
Defined.

(** C3. Every operation preserves the bound of every scope.  Whatever
    operations a limiter with limits that are not negative has gone
    through since it was made, and whatever the current time: for every
    tracked user and every tracked IP address, the sum of the key's
    bucket counts whose timestamps lie within the scope's window of the
    current time does not exceed the scope's limit.  The global scope
    satisfies the same bound, although its count rises by one on every
    call the global scope admits, also when a narrower scope then denies
    the call. *)
Theorem windowed_sum_within_limit gl gw ul uw il iw ops (now : Qc) :
  0 ≤ gl → 0 ≤ ul → 0 ≤ il →
  let s := run_operations ops (init gl gw ul uw il iw) in
  sum_values (_cleanup_expired_requests (global_requests s) gw now) ≤ gl ∧
  (∀ uid d, user_requests s !! uid = Some d →
     sum_values (_cleanup_expired_requests d uw now) ≤ ul) ∧
  (∀ ip d, ip_requests s !! ip = Some d →
     sum_values (_cleanup_expired_requests d iw now) ≤ il) ∧
  (∀ u i,
     let g := _cleanup_expired_requests (global_requests s) gw now in
     sum_values g < gl →
     sum_values (global_requests (is_allowed now u i s).1.2)
       = sum_values g + 1).
Proof.
  intros Hgl Hul Hil s.
  destruct (run_operations_inv ops (init gl gw ul uw il iw))
    as [(Hg & Hu & Hi) Hcfg]; [done|done|by apply limiter_inv_init|].
  fold s in Hg, Hu, Hi, Hcfg. unfold config in Hcfg. simpl in Hcfg.
  injection Hcfg as Hgl' Hgw' Hul' Huw' Hil' Hiw'.
  rewrite Hgl' in Hg.
  split_and!.
  - by destruct (bounded_cleanup gl _ gw now Hg).
  - intros uid d Hd. specialize (Hu uid d Hd). rewrite Hul' in Hu.
    by destruct (bounded_cleanup ul _ uw now Hu).
  - intros ip d Hd. specialize (Hi ip d Hd). rewrite Hil' in Hi.
    by destruct (bounded_cleanup il _ iw now Hi).
  - intros u i g Hlt. rewrite is_allowed_global_requests.
    rewrite Hgl', Hgw'. fold g. rewrite geb_false by done.
    apply sum_values_increment.
Qed.

(** A limiter of one request per user and minute, after two calls of
    user 42 (the second denied) and a look at the wait time. *)
Lemma windowed_sum_within_limit_witness :
  let s := run_operations
             [IsAllowed (Qc_of_Z 1) (Some 42) None;
              IsAllowed (Qc_of_Z 2) (Some 42) None;
              GetWaitTime (Qc_of_Z 2) (Some 42) None]
             (init 100 60 1 60 50 60) in
  sum_values (_cleanup_expired_requests (global_requests s) 60 (Qc_of_Z 3))
    ≤ 100 ∧
  (∀ uid d, user_requests s !! uid = Some d →
     sum_values (_cleanup_expired_requests d 60 (Qc_of_Z 3)) ≤ 1) ∧
  sum_values (global_requests s) = 2.
Proof.
  intros s.
  destruct (windowed_sum_within_limit 100 60 1 60 50 60
              [IsAllowed (Qc_of_Z 1) (Some 42) None;
               IsAllowed (Qc_of_Z 2) (Some 42) None;
               GetWaitTime (Qc_of_Z 2) (Some 42) None] (Qc_of_Z 3))
    as (Hg & Hu & _); [lia|lia|lia|].
  split_and!; [exact Hg|exact Hu|by vm_compute].
Defined.

(** C4. A call of a function wrapped by [rate_limit(limit, window)]
    sweeps the private dict; if the retained sum is at or over the limit
    the wrapped callable is not run (its world is untouched), the
    rate-limit error is raised and nothing is counted; otherwise the
    bucket of the current clock reading is incremented, the callable
    runs, and what it returns (or raises) is the outcome of the call.
    With limit 3 and window 10 s around a no-op: three calls and a
    fourth inside one window give three returns and the error, and a
    call 11 s or more after the first one returns again. *)
Theorem throttle_raises_or_runs :
  (∀ W A B limit window (func : callable W A B) now args st,
     let reqs := _cleanup_expired_requests (requests st) window now in
     (limit ≤ sum_values reqs →
      wrapper limit window func now args st =
        (Raise (RuntimeError "Rate limit exceeded"),
         mkThrottled reqs (world st),
         ["Function rate limit exceeded: " +:+ __name__ func])) ∧
     (sum_values reqs < limit →
      (wrapper limit window func now args st).1.1
        = (call func args (world st)).1.1 ∧
      world (wrapper limit window func now args st).1.2
        = (call func args (world st)).1.2 ∧
      requests (wrapper limit window func now args st).1.2
        = <[now := dict_get reqs now + 1]> reqs)) ∧
  (∀ name (t1 t2 t3 t4 t5 : Qc),
     within t1 10 t2 → within t1 10 t3 → within t1 10 t4 →
     (t1 + Qc_of_Z 11 ≤ t5)%Qc →
     (attempts (map (λ now, rate_limit 3 10 (noop name) now ())
                  [t1; t2; t3; t4; t5]) (decorated ())).1
     = [Return (); Return (); Return ();
        Raise (RuntimeError "Rate limit exceeded"); Return ()]).
Proof.
  split; [|apply throttle_scenario].
  intros W A B limit window func now args st reqs. subst reqs.
  rewrite wrapper_run. cbv zeta. split; intros Hsum.
  - by rewrite geb_true.
  - rewrite geb_false by done.
    by destruct (call func args (world st)) as [[r w] l].
Qed.

(** The scenario at seconds 0, 1, 2, 3 and 11, and one call at a full
    dict. *)
Lemma throttle_raises_or_runs_witness :
  (attempts (map (λ now, rate_limit 3 10 (noop "ping") now ())
               (Qc_of_Z <$> [0; 1; 2; 3; 11])) (decorated ())).1
  = [Return (); Return (); Return ();
     Raise (RuntimeError "Rate limit exceeded"); Return ()] ∧
  (let r := wrapper 3 10 (noop "ping") (Qc_of_Z 3) ()
              (mkThrottled {[ Qc_of_Z 0 := 3 ]} ()) in
   r.1.1 = Raise (RuntimeError "Rate limit exceeded") ∧
   sum_values (requests r.1.2) = 3 ∧
   r.2 = ["Function rate limit exceeded: ping"]) ∧
  (wrapper 3 10 (noop "ping") (Qc_of_Z 3) ()
     (mkThrottled {[ Qc_of_Z 0 := 2 ]} ())).1.1 = Return ().
Proof.
  destruct throttle_raises_or_runs as [Hcall Hscenario]. split_and!.
  - apply Hscenario; try (split; by vm_compute). by vm_compute.
  - destruct (Hcall unit unit unit 3 10 (noop "ping") (Qc_of_Z 3) ()
                (mkThrottled {[ Qc_of_Z 0 := 3 ]} ())) as [Hraise _].
    rewrite Hraise by (by vm_compute). by vm_compute.
  - destruct (Hcall unit unit unit 3 10 (noop "ping") (Qc_of_Z 3) ()
                (mkThrottled {[ Qc_of_Z 0 := 2 ]} ())) as [_ Hrun].
    destruct Hrun as (-> & _); by vm_compute.
Defined.

(** C5, as stated, fails: with a user limit of 0 a user that has never
    been seen is at its limit ([is_allowed] denies the call at the user
    scope), yet [get_wait_time] passes over the untracked key and
    returns 0, not the user window of 60 s. *)
Lemma get_wait_time_skips_untracked_key :
  let s := init 100 60 0 60 50 60 in
  let now := Qc_of_Z 1700000000 in
  let r := is_allowed now (Some 42) None s in
  user_limit s ≤ sum_values (_cleanup_expired_requests
      (default ∅ (user_requests s !! 42)) (user_window s) now) ∧
  r.1.1 = Return false ∧
  r.2 = ["Rate limit exceeded for user 42"] ∧
  user_window s = 60 ∧
  get_wait_time now (Some 42) None s = (Return 0, s, []) ∧
  ¬ (∀ now uid s,
       user_limit s ≤ sum_values (_cleanup_expired_requests
           (default ∅ (user_requests s !! uid)) (user_window s) now) →
       ∃ w, (get_wait_time now (Some uid) None s).1.1 = Return w ∧
            user_window s ≤ w).
Proof.
  intros s now r.
  assert (get_wait_time now (Some 42) None s = (Return 0, s, [])) as Hw
    by (by vm_compute).
  split_and!; [by vm_compute..|exact Hw|].
  intros Hclaim.
  destruct (Hclaim now 42 s) as (w & Hrun & Hle); [by vm_compute|].
  rewrite Hw in Hrun. simpl in Hrun, Hle. injection Hrun as <-. lia.
Qed.

(** C5, amended.  [get_wait_time] returns a number that is never
    negative and leaves the limiter as it is; it returns 0 whenever
    [is_allowed], called at the same clock reading with the same keys,
    is admitted; and it returns the maximum of 0 and of what the scopes
    it consults ask for.  The scopes consulted are the global one and
    the user and IP scopes whose key is given and tracked: a key that is
    given but not tracked yet is passed over, as if it had not been
    given.  A consulted scope asks for exactly its configured window
    when the buckets its sweep retains sum to the limit or more, and for
    0 otherwise; buckets whose age is within the window count, buckets
    that are a second or more past the window do not. *)
Theorem get_wait_time_is_max_of_windows now u i s :
  ∃ w, get_wait_time now u i s = (Return w, s, []) ∧
    0 ≤ w ∧
    ((is_allowed now u i s).1.1 = Return true → w = 0) ∧
    w = 0 `max` (scope_estimate Global now u i s `max`
                 (scope_estimate PerUser now u i s `max`
                  scope_estimate PerIP now u i s)) ∧
    (∀ X d t0, consulted X u i s = Some d →
       since t0 d → within t0 (scope_window X s) now →
       scope_limit X s ≤ sum_values d →
       scope_estimate X now u i s = scope_window X s ∧
       scope_window X s ≤ w) ∧
    (∀ X d, consulted X u i s = Some d →
       0 < scope_limit X s → long_expired (scope_window X s) now d →
       scope_estimate X now u i s = 0) ∧
    (∀ uid, u = Some uid → user_requests s !! uid = None →
       scope_estimate PerUser now u i s = 0 ∧
       get_wait_time now u i s = get_wait_time now None i s) ∧
    (∀ ip, i = Some ip → ip_requests s !! ip = None →
       scope_estimate PerIP now u i s = 0 ∧
       get_wait_time now u i s = get_wait_time now u None s).
Proof.
  rewrite get_wait_time_run. cbv zeta. eexists. split; [done|].
  set (w0 := scope_wait (global_limit s) (global_window s) now 0
               (global_requests s)).
  set (uo := u ≫= λ k, user_requests s !! k).
  set (io := i ≫= λ k, ip_requests s !! k).
  set (w1 := from_option (scope_wait (user_limit s) (user_window s) now w0)
               w0 uo).
  set (w2 := from_option (scope_wait (ip_limit s) (ip_window s) now w1)
               w1 io).
  assert (0 ≤ w0) as Hw0 by (by apply scope_wait_nonneg).
  assert (0 ≤ w1) as Hw1.
  { subst w1. destruct uo; simpl; [by apply scope_wait_nonneg|done]. }
  assert (w0 = 0 `max` scope_estimate Global now u i s) as Hg.
  { subst w0. by rewrite scope_wait_is_max. }
  assert (w1 = w0 `max` scope_estimate PerUser now u i s) as Hu.
  { subst w1. unfold scope_estimate. cbn [consulted scope_limit scope_window].
    fold uo. destruct uo; simpl; [by apply scope_wait_is_max|lia]. }
  assert (w2 = w1 `max` scope_estimate PerIP now u i s) as Hi.
  { subst w2. unfold scope_estimate. cbn [consulted scope_limit scope_window].
    fold io. destruct io; simpl; [by apply scope_wait_is_max|lia]. }
  assert (w2 = 0 `max` (scope_estimate Global now u i s `max`
                        (scope_estimate PerUser now u i s `max`
                         scope_estimate PerIP now u i s))) as Hmax by lia.
  split_and!.
  - lia.
  - rewrite is_allowed_run. cbv zeta.
    destruct (Z.geb_spec (sum_values (_cleanup_expired_requests
      (global_requests s) (global_window s) now)) (global_limit s))
      as [|Hlt]; [done|].
    destruct (admit_key (user_limit s) _ _ _ _) as [[] um] eqn:Hum; [|done].
    destruct (admit_key (ip_limit s) _ _ _ _) as [[] im] eqn:Him; [|done].
    intros _.
    assert (w0 = 0) as Hw0'. { subst w0. by apply scope_wait_admitted. }
    assert (w1 = 0) as Hw1'.
    { subst w1 uo. destruct u as [k|]; simpl; [|done].
      apply admit_key_true_inv in Hum.
      destruct (user_requests s !! k) as [d|]; simpl in *; [|done].
      by rewrite scope_wait_admitted. }
    subst w2 io. destruct i as [k|]; simpl; [|done].
    apply admit_key_true_inv in Him.
    destruct (ip_requests s !! k) as [d|]; simpl in *; [|done].
    by rewrite scope_wait_admitted.
  - exact Hmax.
  - intros X d t0 Hd Hsince Hwithin Hsum.
    assert (scope_estimate X now u i s = scope_window X s) as HX.
    { unfold scope_estimate. rewrite Hd. simpl.
      by apply (estimated_wait_within _ _ _ t0). }
    split; [exact HX|]. destruct X; lia.
  - intros X d Hd Hl Hexp. unfold scope_estimate. rewrite Hd. simpl.
    by apply estimated_wait_long_expired.
  - intros uid -> Hnone. split.
    + unfold scope_estimate. simpl. by rewrite Hnone.
    + rewrite get_wait_time_run. cbv zeta. subst w2 w1 uo. simpl.
      by rewrite Hnone.
  - intros ip -> Hnone. split.
    + unfold scope_estimate. simpl. by rewrite Hnone.
    + rewrite get_wait_time_run. cbv zeta. subst w2 io. simpl.
      by rewrite Hnone.
Qed.

(** The default limiter with ten requests of user 42 counted at second
    5.  At second 6 the user is advised the user window; at second 100
    the buckets are long expired and the advice is 0; user 43, not
    tracked, is advised 0 at second 6. *)
Lemma get_wait_time_is_max_of_windows_witness :
  let s := mkRateLimiter 100 60 10 60 50 60
             {[ Qc_of_Z 5 := 10 ]} {[ 42 := {[ Qc_of_Z 5 := 10 ]} ]}
             {[ "10.0.0.1" := {[ Qc_of_Z 5 := 10 ]} ]} in
  get_wait_time (Qc_of_Z 6) (Some 42) (Some "10.0.0.1") s
    = (Return 60, s, []) ∧
  get_wait_time (Qc_of_Z 100) (Some 42) (Some "10.0.0.1") s
    = (Return 0, s, []) ∧
  get_wait_time (Qc_of_Z 6) (Some 43) None s = (Return 0, s, []) ∧
  (is_allowed (Qc_of_Z 6) (Some 43) None s).1.1 = Return true.
Proof.
  intros s.
  assert (∀ X d, consulted X (Some 42) (Some "10.0.0.1") s = Some d →
            d = {[ Qc_of_Z 5 := 10 ]}) as Hd.
  { intros [] d; simpl.
    - by intros [= <-].
    - rewrite lookup_singleton_eq. by intros [= <-].
    - rewrite lookup_singleton_eq. by intros [= <-]. }
  destruct (get_wait_time_is_max_of_windows
              (Qc_of_Z 6) (Some 42) (Some "10.0.0.1") s)
    as (w & Hrun & _ & _ & Hmax & Hover & _).
  destruct (get_wait_time_is_max_of_windows
              (Qc_of_Z 100) (Some 42) (Some "10.0.0.1") s)
    as (w' & Hrun' & _ & _ & Hmax' & _ & Hexpired & _).
  destruct (get_wait_time_is_max_of_windows (Qc_of_Z 6) (Some 43) None s)
    as (w'' & Hrun'' & _ & Hzero & _).
  assert ((is_allowed (Qc_of_Z 6) (Some 43) None s).1.1 = Return true)
    as Hok by (by vm_compute).
  rewrite Hrun, Hrun', Hrun''. rewrite (Hzero Hok).
  assert (scope_estimate PerUser (Qc_of_Z 6) (Some 42) (Some "10.0.0.1") s
          = 60) as Hu.
  { destruct (Hover PerUser {[ Qc_of_Z 5 := 10 ]} (Qc_of_Z 5)) as [-> _];
      [by vm_compute| |split; by vm_compute|by vm_compute|done].
    intros k c [<- _]%lookup_singleton_Some. by vm_compute. }
  assert (∀ X, scope_estimate X (Qc_of_Z 100) (Some 42) (Some "10.0.0.1") s
               = 0) as Hgone.
  { intros X.
    assert (is_Some (consulted X (Some 42) (Some "10.0.0.1") s)) as [d HX].
    { destruct X; simpl; rewrite ?lookup_singleton_eq; by eexists. }
    apply (Hexpired X d HX); [destruct X; simpl; lia|].
    rewrite (Hd X d HX). apply long_expired_singleton.
    destruct X; by vm_compute. }
  rewrite Hmax', !Hgone. rewrite Hmax, Hu.
  assert (scope_estimate Global (Qc_of_Z 6) (Some 42) (Some "10.0.0.1") s
          = 0) as -> by (by vm_compute).
  assert (scope_estimate PerIP (Qc_of_Z 6) (Some 42) (Some "10.0.0.1") s
          = 0) as -> by (by vm_compute).
  done.
Defined.

(** C6. [is_allowed] and [get_wait_time] return normally on every
    input: whatever the clock reading, the optional user id, the optional
    IP address and the state of the limiter, their outcome is a returned
    value and never a raised exception (the [KeyError] of the dict
    subscripts cannot occur).  With the user id absent the user scope is
    skipped: the outcome and the log do not depend on the user scope's
    limit, window or bucket maps, and [is_allowed] leaves the user maps
    as they are; likewise for the IP address and the IP scope. *)
Theorem facade_never_raises now u i s :
  (∃ b s' l, is_allowed now u i s = (Return b, s', l)) ∧
  (∃ w s' l, get_wait_time now u i s = (Return w, s', l)) ∧
  (∀ limit window reqs,
     let r := is_allowed now None i (with_user_scope limit window reqs s) in
     r.1.1 = (is_allowed now None i s).1.1 ∧
     r.2 = (is_allowed now None i s).2 ∧
     user_requests r.1.2 = reqs ∧
     get_wait_time now None i (with_user_scope limit window reqs s)
       = (((get_wait_time now None i s).1.1),
          with_user_scope limit window reqs s, [])) ∧
  (∀ limit window reqs,
     let r := is_allowed now u None (with_ip_scope limit window reqs s) in
     r.1.1 = (is_allowed now u None s).1.1 ∧
     r.2 = (is_allowed now u None s).2 ∧
     ip_requests r.1.2 = reqs ∧
     get_wait_time now u None (with_ip_scope limit window reqs s)
       = (((get_wait_time now u None s).1.1),
          with_ip_scope limit window reqs s, [])).
Proof.
  split_and!.
  - rewrite is_allowed_run. simpl.
    destruct (sum_values _ >=? global_limit s); [by eexists _, _, _|].
    destruct (admit_key (user_limit s) _ _ _ _) as [[] um];
      [|by eexists _, _, _].
    destruct (admit_key (ip_limit s) _ _ _ _) as [ok im].
    by eexists _, _, _.
  - rewrite get_wait_time_run. by eexists _, _, _.
  - intros limit window reqs. rewrite !is_allowed_run, !get_wait_time_run.
    simpl. destruct (sum_values _ >=? global_limit s); [done|].
    by destruct (admit_key (ip_limit s) _ _ _ _) as [[] im].
  - intros limit window reqs. rewrite !is_allowed_run, !get_wait_time_run.
    simpl. destruct (sum_values _ >=? global_limit s); [done|].
    by destruct (admit_key (user_limit s) _ _ _ _) as [[] um].
Qed.

(** C7, as stated, fails: the error raised for a throttled "download"
    and the one raised for a throttled "search" are the same value, so no
    reading of the raised value tells which operation was throttled. *)
Lemma throttle_error_names_no_callable :
  let st := mkThrottled {[ Qc_of_Z 0 := 1 ]} () in
  let r1 := wrapper 1 10 (noop "download") (Qc_of_Z 1) () st in
  let r2 := wrapper 1 10 (noop "search") (Qc_of_Z 1) () st in
  __name__ (noop "download") ≠ __name__ (noop "search") ∧
  r1.1.1 = Raise (RuntimeError "Rate limit exceeded") ∧
  r2.1.1 = Raise (RuntimeError "Rate limit exceeded") ∧
  ¬ ∃ name_of : exn → string,
      ∀ (func : callable unit unit unit) limit window now st e st' l,
        wrapper limit window func now () st = (Raise e, st', l) →
        name_of e = __name__ func.
Proof.
  intros st r1 r2.
  assert (∀ name, ∃ st' l, wrapper 1 10 (noop name) (Qc_of_Z 1) () st
            = (Raise (RuntimeError "Rate limit exceeded"), st', l)) as Hraise.
  { intros name. rewrite wrapper_run. cbv zeta.
    rewrite geb_true by (by vm_compute). by eexists _, _. }
  split_and!.
  - done.
  - subst r1. by destruct (Hraise "download") as (? & ? & ->).
  - subst r2. by destruct (Hraise "search") as (? & ? & ->).
  - intros [name_of Hname].
    destruct (Hraise "download") as (st1 & l1 & H1).
    destruct (Hraise "search") as (st2 & l2 & H2).
    apply Hname in H1, H2. simpl in H1, H2. congruence.
Qed.

(** C7, amended. The error raised by the throttle when admission fails
    is the fixed [RuntimeError("Rate limit exceeded")], the same for every
    wrapped callable; which operation was throttled is said only by the
    warning logged before the raise.  It is the only error the component
    raises of its own: any other exception out of a wrapped call is one
    the callable raised itself, and the facade ([is_allowed],
    [get_wait_time]) raises nothing. *)
Theorem throttle_error_is_fixed :
  (∀ W A B limit window (func : callable W A B) now args st,
     limit ≤ sum_values (_cleanup_expired_requests (requests st) window now) →
     (wrapper limit window func now args st).1.1
       = Raise (RuntimeError "Rate limit exceeded") ∧
     (wrapper limit window func now args st).2
       = ["Function rate limit exceeded: " +:+ __name__ func]) ∧
  (∀ W A B limit window (func : callable W A B) now args st e,
     (wrapper limit window func now args st).1.1 = Raise e →
     (limit ≤ sum_values
                (_cleanup_expired_requests (requests st) window now) ∧
      e = RuntimeError "Rate limit exceeded") ∨
     (call func args (world st)).1.1 = Raise e) ∧
  (∀ now u i s e,
     (is_allowed now u i s).1.1 ≠ Raise e ∧
     (get_wait_time now u i s).1.1 ≠ Raise e).
Proof.
  split_and!.
  - intros W A B limit window func now args st Hsum.
    rewrite wrapper_run. cbv zeta. by rewrite geb_true.
  - intros W A B limit window func now args st e.
    rewrite wrapper_run. cbv zeta.
    destruct (Z.geb_spec (sum_values
      (_cleanup_expired_requests (requests st) window now)) limit) as [Hge|Hlt].
    + simpl. intros [= <-]. left. split; [lia|done].
    + destruct (call func args (world st)) as [[r w] l]. simpl. by right.
  - intros now u i s e. rewrite is_allowed_run, get_wait_time_run.
    split; [|done]. cbv zeta.
    destruct (sum_values _ >=? global_limit s); [done|].
    destruct (admit_key (user_limit s) _ _ _ _) as [[] um]; [|done].
    by destruct (admit_key (ip_limit s) _ _ _ _) as [ok im].
Qed.

Lemma throttle_error_is_fixed_witness :
  let r := wrapper 1 10 (noop "download") (Qc_of_Z 1) ()
             (mkThrottled {[ Qc_of_Z 0 := 1 ]} ()) in
  r.1.1 = Raise (RuntimeError "Rate limit exceeded") ∧
  r.2 = ["Function rate limit exceeded: download"] ∧
  (call (noop "download") () (world (mkThrottled {[ Qc_of_Z 0 := 1 ]} ()))).1.1
    ≠ Raise (RuntimeError "Rate limit exceeded").
Proof.
  intros r. destruct throttle_error_is_fixed as (Hfixed & Honly & _).
  destruct (Hfixed unit unit unit 1 10 (noop "download") (Qc_of_Z 1) ()
              (mkThrottled {[ Qc_of_Z 0 := 1 ]} ())) as [Hraise Hlog];
    [by vm_compute|].
  split_and!; [exact Hraise|exact Hlog|].
  destruct (Honly unit unit unit 1 10 (noop "download") (Qc_of_Z 1) ()
              (mkThrottled {[ Qc_of_Z 0 := 1 ]} ()) _ Hraise)
    as [[_ _]|Hcall]; [done|discriminate Hcall].
Defined.

(** C8. [get_wait_time] mutates no counter: it returns with the limiter
    exactly as it was before the call, so the global bucket map and the
    bucket map of every tracked user and of every tracked IP are the
    same after the call as before it. *)
Theorem get_wait_time_mutates_nothing now u i s :
  ∃ w, get_wait_time now u i s = (Return w, s, []) ∧
    global_requests (get_wait_time now u i s).1.2 = global_requests s ∧
    user_requests (get_wait_time now u i s).1.2 = user_requests s ∧
    ip_requests (get_wait_time now u i s).1.2 = ip_requests s.
Proof. rewrite get_wait_time_run. by eexists. Qed.

(** C9, as stated, fails: a call observed at 1700000000.5 s records the
    bucket key 1700000000.5, which is not an integral number of
    seconds. *)
Lemma bucket_key_with_fraction :
  let now := (Qc_of_Z 3400000001 / Qc_of_Z 2)%Qc in
  let r := is_allowed now (Some 42) None default_limiter in
  r.1.1 = Return true ∧
  global_requests r.1.2 !! now = Some 1 ∧
  has_bucket (user_requests r.1.2) 42 now ∧
  ¬ whole_seconds now.
Proof.
  intros now r. split_and!.
  - by vm_compute.
  - by vm_compute.
  - unfold has_bucket. vm_compute. by eexists.
  - intros [n Hn]. apply (f_equal this) in Hn. vm_compute in Hn.
    discriminate Hn.
Qed.

(** C9, amended. Every bucket key recorded by an operation is the clock
    reading of the call itself, a number of seconds that need not be
    integral: after [is_allowed], and after a call of a throttled
    function, a bucket map holds no key but the current reading and keys
    it held before; an admitted call has a bucket at its own reading in
    every scope it went through.  So each distinct reading forms its own
    key, without normalisation to a grid. *)
Theorem bucket_keys_are_clock_readings :
  (∀ now u i s,
     let r := is_allowed now u i s in
     (∀ k, is_Some (global_requests r.1.2 !! k) →
           k = now ∨ is_Some (global_requests s !! k)) ∧
     (∀ uid k, has_bucket (user_requests r.1.2) uid k →
               k = now ∨ has_bucket (user_requests s) uid k) ∧
     (∀ ip k, has_bucket (ip_requests r.1.2) ip k →
              k = now ∨ has_bucket (ip_requests s) ip k) ∧
     (r.1.1 = Return true →
      is_Some (global_requests r.1.2 !! now) ∧
      (∀ uid, u = Some uid → has_bucket (user_requests r.1.2) uid now) ∧
      (∀ ip, i = Some ip → has_bucket (ip_requests r.1.2) ip now))) ∧
  (∀ W A B limit window (func : callable W A B) now args st,
     let r := wrapper limit window func now args st in
     (∀ k, is_Some (requests r.1.2 !! k) →
           k = now ∨ is_Some (requests st !! k)) ∧
     (sum_values (_cleanup_expired_requests (requests st) window now)
        < limit →
      is_Some (requests r.1.2 !! now))).
Proof.
  split.
  - intros now u i s r. subst r. rewrite is_allowed_run. cbv zeta.
    set (g := _cleanup_expired_requests (global_requests s)
                (global_window s) now).
    destruct (sum_values g >=? global_limit s).
    { simpl. split_and!; [|eauto|eauto|done].
      intros k Hk%cleanup_lookup_is_Some. by right. }
    assert (∀ k, is_Some (increment g now !! k) →
              k = now ∨ is_Some (global_requests s !! k)) as Hg.
    { intros k [->|Hk%cleanup_lookup_is_Some]%increment_lookup_inv; eauto. }
    destruct (admit_key (user_limit s) _ _ _ _) as [[] um] eqn:Hu.
    2: { simpl. split_and!; [done| |eauto|done].
         intros uid k. by apply (admit_key_keys _ _ _ _ _ _ _ _ _ Hu). }
    destruct (admit_key (ip_limit s) _ _ _ _) as [ok im] eqn:Hi. simpl.
    split_and!; [done| | |].
    + intros uid k. by apply (admit_key_keys _ _ _ _ _ _ _ _ _ Hu).
    + intros ip k. by apply (admit_key_keys _ _ _ _ _ _ _ _ _ Hi).
    + intros [= ->]. split_and!.
      * apply increment_lookup_now.
      * intros uid ->. by apply (admit_key_records _ _ _ _ _ _ Hu).
      * intros ip ->. by apply (admit_key_records _ _ _ _ _ _ Hi).
  - intros W A B limit window func now args st r. subst r.
    rewrite wrapper_run. cbv zeta.
    destruct (Z.geb_spec (sum_values
      (_cleanup_expired_requests (requests st) window now)) limit) as [Hge|Hlt].
    + simpl. split; [|lia].
      intros k Hk%cleanup_lookup_is_Some. by right.
    + destruct (call func args (world st)) as [[r w] l]. simpl. split.
      * intros k [->|Hk%cleanup_lookup_is_Some]%increment_lookup_inv; eauto.
      * intros _. apply increment_lookup_now.
Qed.

Lemma bucket_keys_are_clock_readings_witness :
  let now := (Qc_of_Z 3400000001 / Qc_of_Z 2)%Qc in
  let r := is_allowed now (Some 42) None default_limiter in
  is_Some (global_requests r.1.2 !! now) ∧
  has_bucket (user_requests r.1.2) 42 now ∧
  is_Some (requests (wrapper 3 10 (noop "ping") now () (decorated ())).1.2
             !! now).
Proof.
  intros now r. destruct bucket_keys_are_clock_readings as [Hfacade Hthrottle].
  destruct (Hfacade now (Some 42) None default_limiter)
    as (_ & _ & _ & Hrec).
  destruct Hrec as (Hg & Hu & _); [by vm_compute|].
  split_and!; [exact Hg|by apply Hu|].
  destruct (Hthrottle unit unit unit 3 10 (noop "ping") now () (decorated ()))
    as [_ Hnow].
  apply Hnow. by vm_compute.
Defined.

(** C10. A denial at the per-user scope leaves the stored key map of
    the users as it was, but for the empty entry created for a user seen
    for the first time: the sweep and the count are made on a local copy
    that is stored only on admission, so every entry of the user's stored
    bucket map, expired ones included, is still there after the denial.
    The same holds for a denial at the per-IP scope.  The global map, by
    contrast, is replaced by its swept copy on every call, also on a call
    the global scope denies: apart from the bucket of the call itself it
    holds exactly what the sweep retained, and no bucket that is a second
    or more past the global window is left in it. *)
Theorem denial_leaves_key_map now u i s :
  let g := _cleanup_expired_requests (global_requests s)
             (global_window s) now in
  let s' := (is_allowed now u i s).1.2 in
  global_requests s' =
    (if sum_values g >=? global_limit s then g else increment g now) ∧
  (∀ ts, ts ≠ now → global_requests s' !! ts = g !! ts) ∧
  (∀ ts, (ts + Qc_of_Z (global_window s + 1) ≤ now)%Qc → ts ≠ now →
     global_requests s' !! ts = None) ∧
  (∀ uid,
     u = Some uid → sum_values g < global_limit s →
     user_limit s ≤ sum_values (_cleanup_expired_requests
         (default ∅ (user_requests s !! uid)) (user_window s) now) →
     (is_allowed now u i s).1.1 = Return false ∧
     user_requests s' = track uid (user_requests s) ∧
     (∀ d, user_requests s !! uid = Some d →
        user_requests s' = user_requests s ∧
        ∀ ts c, d !! ts = Some c →
          user_requests s' !! uid ≫= (λ d', d' !! ts) = Some c) ∧
     ip_requests s' = ip_requests s) ∧
  (∀ ip,
     i = Some ip → sum_values g < global_limit s →
     (∀ uid, u = Some uid →
        sum_values (_cleanup_expired_requests
          (default ∅ (user_requests s !! uid)) (user_window s) now)
        < user_limit s) →
     ip_limit s ≤ sum_values (_cleanup_expired_requests
         (default ∅ (ip_requests s !! ip)) (ip_window s) now) →
     (is_allowed now u i s).1.1 = Return false ∧
     ip_requests s' = track ip (ip_requests s) ∧
     (∀ d, ip_requests s !! ip = Some d →
        ip_requests s' = ip_requests s ∧
        ∀ ts c, d !! ts = Some c →
          ip_requests s' !! ip ≫= (λ d', d' !! ts) = Some c)).
Proof.
  intros g s'. subst s'. split_and!.
  - apply is_allowed_global_requests.
  - intros ts Hne. rewrite is_allowed_global_requests. cbv zeta. fold g.
    destruct (sum_values g >=? global_limit s); [done|].
    unfold increment. by rewrite lookup_insert_ne.
  - intros ts Hold Hne. rewrite is_allowed_global_requests. cbv zeta.
    fold g.
    assert (g !! ts = None) as Hts.
    { apply map_lookup_filter_None. right. intros c _.
      by apply second_past_window. }
    destruct (sum_values g >=? global_limit s); [done|].
    unfold increment. by rewrite lookup_insert_ne.
  - intros uid -> Hg Hu. rewrite is_allowed_run. cbv zeta. fold g.
    rewrite geb_false by done.
    rewrite admit_key_denied by done. simpl. split_and!; try done.
    intros d Hd.
    assert (track uid (user_requests s) = user_requests s) as ->.
    { unfold track, contains.
      by rewrite bool_decide_eq_true_2 by by rewrite Hd. }
    split; [done|]. intros ts c Hc. by rewrite Hd.
  - intros ip -> Hg Hu Hi. rewrite is_allowed_run. cbv zeta. fold g.
    rewrite geb_false by done.
    assert (∃ um, admit_key (user_limit s) (user_window s) now u
                    (user_requests s) = (true, um)) as [um ->].
    { destruct u as [uid|]; [|by eexists].
      rewrite admit_key_admitted by by apply Hu. by eexists. }
    rewrite admit_key_denied by done. simpl. split_and!; try done.
    intros d Hd.
    assert (track ip (ip_requests s) = ip_requests s) as ->.
    { unfold track, contains.
      by rewrite bool_decide_eq_true_2 by by rewrite Hd. }
    split; [done|]. intros ts c Hc. by rewrite Hd.
Qed.

(** User 7 denied a second call one second after the first; and a
    limiter whose global map and whose stored map for user 7 still hold
    a bucket of second 0, seen from second 100: the denial keeps the one
    of the user and the global one is gone. *)
Lemma denial_leaves_key_map_witness :
  (let s := (is_allowed (Qc_of_Z 1) (Some 7) None
               (init 100 60 1 60 50 60)).1.2 in
   let r := is_allowed (Qc_of_Z 2) (Some 7) None s in
   r.1.1 = Return false ∧ user_requests r.1.2 = user_requests s) ∧
  (let s := mkRateLimiter 100 60 1 60 50 60 {[ Qc_of_Z 0 := 1 ]}
              {[ 7 := {[ Qc_of_Z 0 := 1; Qc_of_Z 100 := 1 ]} ]} ∅ in
   let r := is_allowed (Qc_of_Z 100) (Some 7) None s in
   r.1.1 = Return false ∧
   user_requests r.1.2 = user_requests s ∧
   user_requests r.1.2 !! 7 ≫= (λ d, d !! Qc_of_Z 0) = Some 1 ∧
   global_requests r.1.2 !! Qc_of_Z 0 = None).
Proof.
  split.
  - intros s r.
    destruct (denial_leaves_key_map (Qc_of_Z 2) (Some 7) None s)
      as (_ & _ & _ & Hu & _).
    destruct (Hu 7) as (Hr & _ & Hsame & _);
      [reflexivity | by vm_compute | by vm_compute |].
    assert (is_Some (user_requests s !! 7)) as [d Hd]
      by (vm_compute; by eexists).
    destruct (Hsame _ Hd) as [Heq _]. split; [exact Hr | exact Heq].
  - intros s r.
    destruct (denial_leaves_key_map (Qc_of_Z 100) (Some 7) None s)
      as (_ & _ & Hgone & Hu & _).
    destruct (Hu 7) as (Hr & _ & Hsame & _);
      [reflexivity | by vm_compute | by vm_compute |].
    assert (user_requests s !! 7
            = Some {[ Qc_of_Z 0 := 1; Qc_of_Z 100 := 1 ]}) as Hd
      by (by vm_compute).
    destruct (Hsame _ Hd) as [Heq Hkept].
    split_and!; [exact Hr | exact Heq | |].
    + apply Hkept. by vm_compute.
    + apply Hgone; by vm_compute.
Defined.

(** * Further properties *)

(** ** Sweeping *)

Lemma earlier_reading (t t' k : Qc) (w : Z) :
  (t ≤ t')%Qc → (t' - k ≤ Qc_of_Z w)%Qc → (t - k ≤ Qc_of_Z w)%Qc.
Proof. intros. qc_lra. Qed.

Lemma cleanup_cleanup d w (t t' : Qc) :
  (t ≤ t')%Qc →
  _cleanup_expired_requests (_cleanup_expired_requests d w t) w t'
    = _cleanup_expired_requests d w t'.
Proof.
  intros Ht. unfold _cleanup_expired_requests.
  apply map_filter_filter_l. intros k c _. simpl. by apply earlier_reading.
Qed.

Lemma sum_values_cleanup_later d w (t t' : Qc) :
  (t ≤ t')%Qc → positive_counts d →
  sum_values (_cleanup_expired_requests d w t')
    ≤ sum_values (_cleanup_expired_requests d w t).
Proof.
  intros Ht Hpos. rewrite <-(cleanup_cleanup d w t t') by done.
  by apply sum_values_cleanup, positive_counts_cleanup.
Qed.

(** X1. Sweeping is idempotent and a sweep absorbs every earlier one:
    buckets swept at reading [t] and then at a later reading [t'] are the
    buckets swept at [t'] alone, so it makes no difference how often a
    bucket map was swept on the way; and the sum that counts towards a
    decision never grows while time passes. *)
Theorem cleanup_absorbs_earlier_sweep d w (t t' : Qc) :
  (t ≤ t')%Qc →
  _cleanup_expired_requests (_cleanup_expired_requests d w t) w t'
    = _cleanup_expired_requests d w t' ∧
  _cleanup_expired_requests (_cleanup_expired_requests d w t') w t'
    = _cleanup_expired_requests d w t' ∧
  (positive_counts d →
   sum_values (_cleanup_expired_requests d w t')
     ≤ sum_values (_cleanup_expired_requests d w t)).
Proof.
  intros Ht. split_and!.
  - by apply cleanup_cleanup.
  - apply cleanup_cleanup, Qcle_refl.
  - by apply sum_values_cleanup_later.
Qed.

Lemma cleanup_absorbs_earlier_sweep_witness :
  let d : buckets := {[ Qc_of_Z 0 := 1; Qc_of_Z 50 := 2; Qc_of_Z 90 := 1 ]} in
  _cleanup_expired_requests (_cleanup_expired_requests d 60 (Qc_of_Z 70))
    60 (Qc_of_Z 120)
  = _cleanup_expired_requests d 60 (Qc_of_Z 120) ∧
  sum_values (_cleanup_expired_requests d 60 (Qc_of_Z 120))
    ≤ sum_values (_cleanup_expired_requests d 60 (Qc_of_Z 70)).
Proof.
  intros d.
  destruct (cleanup_absorbs_earlier_sweep d 60 (Qc_of_Z 70) (Qc_of_Z 120))
    as (Habs & _ & Hsum); [by vm_compute|].
  split; [exact Habs|]. apply Hsum.
  intros k c Hk. simpl.
  repeat (apply lookup_insert_Some in Hk as [[_ <-]|[_ Hk]]; [lia|]).
  apply lookup_singleton_Some in Hk as [_ <-]. lia.
Defined.

(** ** Keys *)

Lemma admit_key_frame {K} `{Countable K} limit window now
    (key : option K) (m m' : gmap K buckets) ok j :
  admit_key limit window now key m = (ok, m') →
  key ≠ Some j → m' !! j = m !! j.
Proof.
  unfold admit_key. destruct key as [k|]; [|by intros [= _ <-]].
  intros Hrun Hne. assert (k ≠ j) by congruence.
  destruct (_ >=? limit); injection Hrun as _ <-.
  - by apply track_lookup_ne.
  - by rewrite lookup_insert_ne.
Qed.

Lemma admit_key_tracks {K} `{Countable K} limit window now
    (key : option K) (m m' : gmap K buckets) ok j :
  admit_key limit window now key m = (ok, m') →
  is_Some (m !! j) ∨ key = Some j → is_Some (m' !! j).
Proof.
  intros Hrun Hj. destruct (decide (key = Some j)) as [->|Hne].
  - unfold admit_key in Hrun.
    destruct (_ >=? limit); injection Hrun as _ <-.
    + rewrite track_lookup. eauto.
    + rewrite lookup_insert_eq. eauto.
  - rewrite (admit_key_frame _ _ _ _ _ _ _ _ Hrun) by done.
    by destruct Hj.
Qed.

(** X2. A call touches the buckets of its own keys only: [is_allowed]
    leaves the stored buckets of every other user and of every other IP
    address exactly as they were (and those of all users, resp. all
    addresses, when it is given no user id, resp. no address).  What a
    call of one user always shares with the others is the global
    count. *)
Theorem is_allowed_key_isolation now u i s :
  let s' := (is_allowed now u i s).1.2 in
  (∀ uid, u ≠ Some uid → user_requests s' !! uid = user_requests s !! uid) ∧
  (∀ ip, i ≠ Some ip → ip_requests s' !! ip = ip_requests s !! ip).
Proof.
  intros s'. subst s'. rewrite is_allowed_run. cbv zeta.
  destruct (sum_values _ >=? global_limit s); [done|].
  destruct (admit_key (user_limit s) _ _ _ _) as [uok um] eqn:Hu.
  pose proof (λ j, admit_key_frame _ _ _ _ _ _ _ j Hu) as Hum.
  destruct uok; [|done].
  destruct (admit_key (ip_limit s) _ _ _ _) as [iok im] eqn:Hi.
  pose proof (λ j, admit_key_frame _ _ _ _ _ _ _ j Hi) as Him.
  done.
Qed.

Lemma is_allowed_key_isolation_witness :
  let s := mkRateLimiter 100 60 10 60 50 60 {[ Qc_of_Z 1 := 1 ]}
             {[ 7 := {[ Qc_of_Z 1 := 1 ]} ]} ∅ in
  user_requests (is_allowed (Qc_of_Z 2) (Some 8) None s).1.2 !! 7
    = Some {[ Qc_of_Z 1 := 1 ]}.
Proof.
  intros s.
  destruct (is_allowed_key_isolation (Qc_of_Z 2) (Some 8) None s) as [Hu _].
  rewrite Hu by done. subst s. simpl. apply lookup_singleton_eq.
Defined.

Lemma run_operation_tracks op s :
  (∀ uid, is_Some (user_requests s !! uid) →
     is_Some (user_requests (run_operation s op) !! uid)) ∧
  (∀ ip, is_Some (ip_requests s !! ip) →
     is_Some (ip_requests (run_operation s op) !! ip)).
Proof.
  destruct op as [now u i|now u i]; simpl.
  2: { by rewrite get_wait_time_run. }
  rewrite is_allowed_run. cbv zeta.
  destruct (sum_values _ >=? global_limit s); [done|].
  destruct (admit_key (user_limit s) _ _ _ _) as [uok um] eqn:Hu.
  pose proof (λ j Hj, admit_key_tracks _ _ _ _ _ _ _ j Hu (or_introl Hj))
    as Hum.
  destruct uok; [|done].
  destruct (admit_key (ip_limit s) _ _ _ _) as [iok im] eqn:Hi.
  pose proof (λ j Hj, admit_key_tracks _ _ _ _ _ _ _ j Hi (or_introl Hj))
    as Him.
  done.
Qed.

(** X3. The limiter never forgets a key.  Once a user id or an IP
    address is tracked it stays tracked through every later operation;
    a call that passes the global scope tracks its user id, also when
    the user scope then denies it, and a call that passes the user scope
    as well tracks its IP address.  A call the global scope denies
    tracks nothing new. *)
Theorem keys_are_never_forgotten :
  (∀ ops s,
     (∀ uid, is_Some (user_requests s !! uid) →
        is_Some (user_requests (run_operations ops s) !! uid)) ∧
     (∀ ip, is_Some (ip_requests s !! ip) →
        is_Some (ip_requests (run_operations ops s) !! ip))) ∧
  (∀ now u i s,
     let g := _cleanup_expired_requests (global_requests s)
                (global_window s) now in
     let s' := (is_allowed now u i s).1.2 in
     (sum_values g < global_limit s →
      (∀ uid, u = Some uid → is_Some (user_requests s' !! uid)) ∧
      ((∀ uid, u = Some uid →
          sum_values (_cleanup_expired_requests
            (default ∅ (user_requests s !! uid)) (user_window s) now)
          < user_limit s) →
       ∀ ip, i = Some ip → is_Some (ip_requests s' !! ip))) ∧
     (global_limit s ≤ sum_values g →
      user_requests s' = user_requests s ∧ ip_requests s' = ip_requests s)).
Proof.
  split.
  - induction ops as [|op ops IH]; intros s; [done|]. simpl.
    destruct (run_operation_tracks op s) as [Hu Hi].
    destruct (IH (run_operation s op)) as [Hu' Hi']. split; eauto.
  - intros now u i s g s'. subst s'. rewrite is_allowed_run. cbv zeta.
    fold g. split.
    + intros Hg. rewrite geb_false by done.
      destruct (admit_key (user_limit s) _ _ _ _) as [uok um] eqn:Hu.
      pose proof (λ j Hj, admit_key_tracks _ _ _ _ _ _ _ j Hu (or_intror Hj))
        as Hum.
      split.
      * intros uid ->. destruct uok; [|by apply Hum].
        destruct (admit_key (ip_limit s) _ _ _ _) as [iok im].
        by apply Hum.
      * intros Hroom ip ->.
        assert (uok = true) as ->.
        { destruct u as [uid|].
          - rewrite admit_key_admitted in Hu by by apply Hroom.
            by injection Hu as <- _.
          - unfold admit_key in Hu. by injection Hu as <- _. }
        destruct (admit_key (ip_limit s) _ _ _ _) as [iok im] eqn:Hi.
        simpl. by apply (admit_key_tracks _ _ _ _ _ _ _ _ Hi); right.
    + intros Hg. by rewrite geb_true.
Qed.

Lemma keys_are_never_forgotten_witness :
  let s := (is_allowed (Qc_of_Z 1) (Some 7) (Some "10.0.0.1")
              (init 100 60 0 60 50 60)).1.2 in
  is_Some (user_requests s !! 7) ∧
  is_Some (user_requests
             (run_operations [IsAllowed (Qc_of_Z 500) (Some 8) None;
                              GetWaitTime (Qc_of_Z 900) None None] s) !! 7).
Proof.
  intros s. destruct keys_are_never_forgotten as [Hkeep Hnew].
  assert (is_Some (user_requests s !! 7)) as H7.
  { destruct (Hnew (Qc_of_Z 1) (Some 7) (Some "10.0.0.1")
                (init 100 60 0 60 50 60)) as [Hadm _].
    destruct Hadm as [Hu _]; [by vm_compute|]. by apply Hu. }
  split; [exact H7|]. by apply Hkeep.
Defined.

(** ** Recovery *)

Lemma admit_key_stale {K} `{Countable K} limit window now (k : K) m :
  0 < limit → stale window now (default ∅ (m !! k)) →
  admit_key limit window now (Some k) m = (true, <[k := {[ now := 1 ]}]> m).
Proof.
  intros Hl Hstale. rewrite admit_key_admitted.
  - by rewrite cleanup_stale, increment_empty.
  - by rewrite cleanup_stale, sum_values_empty.
Qed.

Lemma is_allowed_idle now u i s :
  0 < global_limit s → 0 < user_limit s → 0 < ip_limit s →
  stale (global_window s) now (global_requests s) →
  (∀ uid, u = Some uid →
     stale (user_window s) now (default ∅ (user_requests s !! uid))) →
  (∀ ip, i = Some ip →
     stale (ip_window s) now (default ∅ (ip_requests s !! ip))) →
  let r := is_allowed now u i s in
  r.1.1 = Return true ∧ r.2 = [] ∧
  global_requests r.1.2 = {[ now := 1 ]} ∧
  (∀ uid, u = Some uid → user_requests r.1.2 !! uid = Some {[ now := 1 ]}) ∧
  (∀ ip, i = Some ip → ip_requests r.1.2 !! ip = Some {[ now := 1 ]}).
Proof.
  intros Hgl Hul Hil Hg Hu Hi r. subst r.
  rewrite is_allowed_run. cbv zeta.
  rewrite (cleanup_stale (global_requests s)), sum_values_empty by done.
  rewrite geb_false, increment_empty by done.
  destruct u as [uid|], i as [ip|].
  - rewrite !admit_key_stale by eauto. simpl. split_and!; try done.
    + intros ? [= <-]. apply lookup_insert_eq.
    + intros ? [= <-]. apply lookup_insert_eq.
  - rewrite admit_key_stale by eauto. unfold admit_key. simpl.
    split_and!; try done. intros ? [= <-]. apply lookup_insert_eq.
  - rewrite admit_key_stale by eauto. unfold admit_key. simpl.
    split_and!; try done. intros ? [= <-]. apply lookup_insert_eq.
  - unfold admit_key. simpl. done.
Qed.


(** X4. An idle limiter starts afresh.  When every bucket stored for
    the keys of a call (the global buckets, and those of its user id and
    of its IP address, if any) is at least a second past the window of
    its scope at the reading of the call, and the limits are positive,
    [is_allowed] admits the call without a warning and afterwards each of
    these bucket maps holds the one bucket of this call, with count 1.
    This is in particular the first call on a new limiter and the first
    call of a new key. *)
Theorem idle_limiter_starts_afresh now u i s :
  0 < global_limit s → 0 < user_limit s → 0 < ip_limit s →
  long_expired (global_window s) now (global_requests s) →
  (∀ uid, u = Some uid →
     long_expired (user_window s) now
       (default ∅ (user_requests s !! uid))) →
  (∀ ip, i = Some ip →
     long_expired (ip_window s) now (default ∅ (ip_requests s !! ip))) →
  let r := is_allowed now u i s in
  r.1.1 = Return true ∧ r.2 = [] ∧
  global_requests r.1.2 = {[ now := 1 ]} ∧
  (∀ uid, u = Some uid → user_requests r.1.2 !! uid = Some {[ now := 1 ]}) ∧
  (∀ ip, i = Some ip → ip_requests r.1.2 !! ip = Some {[ now := 1 ]}).
Proof.
  intros Hgl Hul Hil Hg Hu Hi.
  apply is_allowed_idle; try done.
  - by apply long_expired_stale.
  - intros uid Huid. by apply long_expired_stale, Hu.
  - intros ip Hip. by apply long_expired_stale, Hi.
Qed.

(** User 42, last seen at second 5, calling again at second 100. *)
Lemma idle_limiter_starts_afresh_witness :
  let s := mkRateLimiter 100 60 10 60 50 60
             {[ Qc_of_Z 5 := 10 ]} {[ 42 := {[ Qc_of_Z 5 := 10 ]} ]} ∅ in
  let r := is_allowed (Qc_of_Z 100) (Some 42) (Some "10.0.0.1") s in
  r.1.1 = Return true ∧
  global_requests r.1.2 = {[ Qc_of_Z 100 := 1 ]} ∧
  user_requests r.1.2 !! 42 = Some {[ Qc_of_Z 100 := 1 ]} ∧
  ip_requests r.1.2 !! "10.0.0.1" = Some {[ Qc_of_Z 100 := 1 ]}.
Proof.
  intros s r.
  assert (long_expired 60 (Qc_of_Z 100) {[ Qc_of_Z 5 := 10 ]}) as Hstale.
  { apply long_expired_singleton. by vm_compute. }
  destruct (idle_limiter_starts_afresh (Qc_of_Z 100) (Some 42)
              (Some "10.0.0.1") s) as (Hr & _ & Hg & Hu & Hi).
  - simpl. lia.
  - simpl. lia.
  - simpl. lia.
  - exact Hstale.
  - intros uid [= <-]. simpl. rewrite lookup_singleton_eq. exact Hstale.
  - intros ip [= <-]. simpl. rewrite lookup_empty. simpl.
    apply long_expired_empty.
  - split_and!; [exact Hr|exact Hg|by apply Hu|by apply Hi].
Defined.

Lemma past_window (t t' k : Qc) (window W : Z) :
  window ≤ W → (k ≤ t)%Qc → (t + Qc_of_Z W < t')%Qc →
  ¬ (t' - k ≤ Qc_of_Z window)%Qc.
Proof.
  intros HW Hk Ht Hle. assert (inject_Z window <= inject_Z W)%Q as Hq.
  { by rewrite <-Zle_Qle. }
  qc_lra.
Qed.

Lemma slept_a_second_more (t t' : Qc) (W : Z) :
  (t + Qc_of_Z (W + 1) ≤ t')%Qc → (t + Qc_of_Z W < t')%Qc.
Proof.
  intros Ht. assert (inject_Z (W + 1) == inject_Z W + 1)%Q as Hq.
  { by rewrite inject_Z_plus. }
  qc_lra.
Qed.

Lemma after_wait (t t' : Qc) (W : Z) :
  0 ≤ W → (t + Qc_of_Z W < t')%Qc → (t ≤ t')%Qc.
Proof.
  intros HW Ht. assert (inject_Z 0 <= inject_Z W)%Q as Hq.
  { by rewrite <-Zle_Qle. }
  change (inject_Z 0) with 0%Q in Hq. qc_lra.
Qed.

Lemma no_later_empty t : no_later t ∅.
Proof. intros k c. by rewrite lookup_empty. Qed.

Lemma no_later_cleanup t d w now :
  no_later t d → no_later t (_cleanup_expired_requests d w now).
Proof. intros Hd k c [Hk _]%map_lookup_filter_Some. by apply (Hd k c). Qed.

Lemma no_later_increment t d now :
  no_later t d → (now ≤ t)%Qc → no_later t (increment d now).
Proof.
  intros Hd Hnow k c. unfold increment.
  intros [[<- _]|[_ Hk]]%lookup_insert_Some; [done|]. by apply (Hd k c).
Qed.

Lemma admit_key_no_later {K} `{Countable K} limit window now t
    (key : option K) (m m' : gmap K buckets) ok :
  (now ≤ t)%Qc →
  (∀ x d, m !! x = Some d → no_later t d) →
  admit_key limit window now key m = (ok, m') →
  ∀ x d, m' !! x = Some d → no_later t d.
Proof.
  intros Hnow Hm. unfold admit_key. destruct key as [y|]; [|by intros [= _ <-]].
  assert (no_later t (default ∅ (m !! y))) as Hy.
  { destruct (m !! y) as [d|] eqn:Hd; simpl; [by apply (Hm y)|].
    apply no_later_empty. }
  destruct (_ >=? limit); intros [= _ <-] x d.
  - destruct (decide (y = x)) as [->|Hne].
    + rewrite track_lookup. by intros [= <-].
    + rewrite track_lookup_ne by done. apply Hm.
  - destruct (decide (y = x)) as [->|Hne].
    + rewrite lookup_insert_eq. intros [= <-].
      apply no_later_increment; [by apply no_later_cleanup|done].
    + rewrite lookup_insert_ne by done. apply Hm.
Qed.

Lemma is_allowed_no_later now t u i s :
  (now ≤ t)%Qc → limiter_no_later t s →
  limiter_no_later t (is_allowed now u i s).1.2.
Proof.
  intros Hnow (Hg & Hu & Hi).
  pose proof (no_later_cleanup t _ (global_window s) now Hg) as Hgc.
  pose proof (no_later_increment t _ now Hgc Hnow) as Hgi.
  rewrite is_allowed_run. cbv zeta.
  destruct (sum_values _ >=? global_limit s); [done|].
  destruct (admit_key (user_limit s) _ _ _ _) as [uok um] eqn:Hum.
  pose proof (admit_key_no_later _ _ _ _ _ _ _ _ Hnow Hu Hum) as Hu'.
  destruct uok; [|done].
  destruct (admit_key (ip_limit s) _ _ _ _) as [iok im] eqn:Him.
  pose proof (admit_key_no_later _ _ _ _ _ _ _ _ Hnow Hi Him) as Hi'.
  done.
Qed.

Lemma run_operations_no_later t ops : ∀ s,
  Forall (λ op, (op_time op ≤ t)%Qc) ops →
  limiter_no_later t s → limiter_no_later t (run_operations ops s).
Proof.
  induction ops as [|op ops IH]; intros s Hops Hs; [done|].
  apply Forall_cons in Hops as [Hop Hops]. simpl. apply IH; [done|].
  destruct op as [now u i|now u i]; simpl in *.
  - by apply is_allowed_no_later.
  - by rewrite get_wait_time_run.
Qed.

Lemma scope_wait_ge limit window now w d :
  w ≤ scope_wait limit window now w d.
Proof. unfold scope_wait. destruct (_ >=? _); lia. Qed.

Lemma scope_wait_cases limit window now w d :
  sum_values (_cleanup_expired_requests d window now) < limit ∨
  window ≤ scope_wait limit window now w d.
Proof.
  unfold scope_wait.
  destruct (Z.geb_spec (sum_values (_cleanup_expired_requests d window now))
              limit); [right|left]; lia.
Qed.

Lemma bucket_recovers limit window (t t' : Qc) W w d :
  0 < limit → positive_counts d → no_later t d →
  (t ≤ t')%Qc → (t + Qc_of_Z W < t')%Qc →
  scope_wait limit window t w d ≤ W →
  sum_values (_cleanup_expired_requests d window t') < limit.
Proof.
  intros Hl Hpos Hd Hle Ht HW.
  destruct (scope_wait_cases limit window t w d) as [Hroom|Hover].
  - pose proof (sum_values_cleanup_later d window t t' Hle Hpos). lia.
  - rewrite cleanup_stale, sum_values_empty; [done|].
    intros k c Hk. apply (past_window t t' k window W); [lia| |done].
    by apply (Hd k c).
Qed.

Lemma is_allowed_after_wait (t t' : Qc) u i s W :
  0 < global_limit s → 0 < user_limit s → 0 < ip_limit s →
  limiter_inv s → limiter_no_later t s →
  (get_wait_time t u i s).1.1 = Return W →
  (t + Qc_of_Z W < t')%Qc →
  (is_allowed t' u i s).1.1 = Return true.
Proof.
  intros Hgl Hul Hil (Hg & Hu & Hi) (Hg' & Hu' & Hi').
  rewrite get_wait_time_run. cbv zeta. simpl.
  set (w0 := scope_wait (global_limit s) (global_window s) t 0
               (global_requests s)).
  set (uo := u ≫= λ k, user_requests s !! k).
  set (io := i ≫= λ k, ip_requests s !! k).
  set (w1 := from_option (scope_wait (user_limit s) (user_window s) t w0)
               w0 uo).
  intros [= HW] Ht.
  assert (0 ≤ w0) as Hw0 by (by apply scope_wait_nonneg).
  assert (w0 ≤ w1) as Hw01.
  { subst w1. destruct uo; simpl; [apply scope_wait_ge|done]. }
  assert (w1 ≤ W) as Hw1W.
  { subst W. destruct io; simpl; [apply scope_wait_ge|done]. }
  assert (t ≤ t')%Qc as Hle by (apply (after_wait t t' W); [lia|done]).
  rewrite is_allowed_run. cbv zeta.
  rewrite geb_false.
  2: { destruct Hg. apply (bucket_recovers _ _ t t' W 0); try done.
       fold w0. lia. }
  assert (∃ um, admit_key (user_limit s) (user_window s) t' u
                  (user_requests s) = (true, um)) as [um ->].
  { destruct u as [uid|]; [|by eexists].
    rewrite admit_key_admitted; [by eexists|].
    subst uo w1. simpl in *.
    destruct (user_requests s !! uid) as [d|] eqn:Hd; simpl in *.
    - destruct (Hu uid d Hd).
      apply (bucket_recovers _ _ t t' W w0); try done. by apply (Hu' uid).
    - by rewrite cleanup_empty, sum_values_empty. }
  assert (∃ im, admit_key (ip_limit s) (ip_window s) t' i
                  (ip_requests s) = (true, im)) as [im ->].
  { destruct i as [ip|]; [|by eexists].
    rewrite admit_key_admitted; [by eexists|].
    subst io. simpl in *.
    destruct (ip_requests s !! ip) as [d|] eqn:Hd; simpl in *.
    - destruct (Hi ip d Hd).
      apply (bucket_recovers _ _ t t' W w1); try done; [by apply (Hi' ip)|].
      lia.
    - by rewrite cleanup_empty, sum_values_empty. }
  done.
Qed.

Lemma limiter_no_later_init t gl gw ul uw il iw :
  limiter_no_later t (init gl gw ul uw il iw).
Proof.
  split_and!; simpl.
  - apply no_later_empty.
  - intros uid d. by rewrite lookup_empty.
  - intros ip d. by rewrite lookup_empty.
Qed.

(** X5. The advised wait, with the second that [main] adds to it, is
    long enough.  On a limiter with positive limits whose clock has not
    read more than [t] so far: if [get_wait_time] at reading [t] advises
    to wait [w] seconds, then [is_allowed] with the same keys at any
    reading from [t + w + 1] on, such as the one that follows the
    [time.sleep(wait_time + 1)] of [main], is admitted. *)
Theorem advised_wait_is_enough gl gw ul uw il iw ops (t t' : Qc) u i w :
  0 < gl → 0 < ul → 0 < il →
  Forall (λ op, (op_time op ≤ t)%Qc) ops →
  let s := run_operations ops (init gl gw ul uw il iw) in
  (get_wait_time t u i s).1.1 = Return w →
  (t + Qc_of_Z (w + 1) ≤ t')%Qc →
  (is_allowed t' u i s).1.1 = Return true.
Proof.
  intros Hgl Hul Hil Hops s Hw Ht%slept_a_second_more.
  destruct (run_operations_inv ops (init gl gw ul uw il iw))
    as [Hinv Hcfg]; [simpl; lia|simpl; lia|apply limiter_inv_init; lia|].
  pose proof (run_operations_no_later t ops _ Hops
                (limiter_no_later_init t gl gw ul uw il iw)) as Hno.
  fold s in Hinv, Hcfg, Hno. unfold config in Hcfg. simpl in Hcfg.
  injection Hcfg as Hgl' Hgw' Hul' Huw' Hil' Hiw'.
  apply (is_allowed_after_wait t t' u i s w); (done || lia).
Qed.

(** The default limiter after ten calls of user 42 and a denied
    eleventh: the advice is 60 s, and a call 61 s later is admitted. *)
Lemma advised_wait_is_enough_witness :
  let ops := (λ n, IsAllowed (Qc_of_Z n) (Some 42) (Some "10.0.0.1"))
               <$> [1; 2; 3; 4; 5; 6; 7; 8; 9; 10; 11] in
  let s := run_operations ops default_limiter in
  (get_wait_time (Qc_of_Z 11) (Some 42) (Some "10.0.0.1") s).1.1
    = Return 60 ∧
  (is_allowed (Qc_of_Z 72) (Some 42) (Some "10.0.0.1") s).1.1
    = Return true.
Proof.
  intros ops s.
  assert ((get_wait_time (Qc_of_Z 11) (Some 42) (Some "10.0.0.1") s).1.1
          = Return 60) as Hw by (by vm_compute).
  split; [exact Hw|].
  apply (advised_wait_is_enough 100 60 10 60 50 60 ops (Qc_of_Z 11)
           (Qc_of_Z 72) (Some 42) (Some "10.0.0.1") 60);
    [lia|lia|lia| |exact Hw|by vm_compute].
  subst ops. simpl.
  repeat (apply Forall_cons; split; [by vm_compute|]). by apply Forall_nil.
Defined.

(** ** Advice and decision *)

Lemma scope_wait_zero limit window now w d :
  0 ≤ w → 0 < window →
  scope_wait limit window now w d = 0 →
  w = 0 ∧ sum_values (_cleanup_expired_requests d window now) < limit.
Proof.
  unfold scope_wait. intros Hw Hwin.
  destruct (Z.geb_spec (sum_values (_cleanup_expired_requests d window now))
              limit); lia.
Qed.

(** X6. With positive windows and positive limits the advice and the
    decision agree: [get_wait_time] returns 0 exactly when [is_allowed],
    called at the same clock reading with the same keys on the same
    limiter, is admitted; a denied caller is always advised a positive
    wait. *)
Theorem zero_wait_iff_admitted now u i s :
  0 < global_window s → 0 < user_window s → 0 < ip_window s →
  0 < user_limit s → 0 < ip_limit s →
  (get_wait_time now u i s).1.1 = Return 0 ↔
  (is_allowed now u i s).1.1 = Return true.
Proof.
  intros Hgw Huw Hiw Hul Hil.
  rewrite get_wait_time_run, is_allowed_run. cbv zeta. simpl.
  set (w0 := scope_wait (global_limit s) (global_window s) now 0
               (global_requests s)).
  set (w1 := from_option (scope_wait (user_limit s) (user_window s) now w0)
               w0 (u ≫= λ k, user_requests s !! k)).
  assert (0 ≤ w0) as Hw0 by (by apply scope_wait_nonneg).
  assert (0 ≤ w1) as Hw1.
  { subst w1. destruct (u ≫= _); simpl; [by apply scope_wait_nonneg|done]. }
  assert (∀ {K} `{Countable K} limit window (key : option K)
            (m : gmap K buckets) w,
    0 ≤ w → 0 < window → 0 < limit →
    (from_option (scope_wait limit window now w) w (key ≫= λ k, m !! k) = 0
     ↔ w = 0 ∧ (admit_key limit window now key m).1 = true)) as Hkey.
  { intros K ? ? limit window key m w Hw Hwin Hlim.
    unfold admit_key. destruct key as [k|]; simpl; [|tauto].
    destruct (m !! k) as [d|]; simpl.
    - unfold scope_wait.
      destruct (Z.geb_spec (sum_values
        (_cleanup_expired_requests d window now)) limit); simpl;
        split; intros; (lia || (split; [lia|done]) || (by destruct_and!)).
    - rewrite cleanup_empty, sum_values_empty, geb_false by done. simpl.
      tauto. }
  split.
  - intros [= H2]. apply Hkey in H2 as [H1 Hi]; [|done..].
    apply Hkey in H1 as [H0 Hu]; [|done..].
    apply scope_wait_zero in H0 as [_ Hg]; [|done..].
    rewrite geb_false by done.
    destruct (admit_key (user_limit s) _ _ _ _) as [uok um].
    simpl in Hu. subst uok.
    destruct (admit_key (ip_limit s) _ _ _ _) as [iok im].
    simpl in Hi. by subst iok.
  - destruct (Z.geb_spec (sum_values (_cleanup_expired_requests
      (global_requests s) (global_window s) now)) (global_limit s))
      as [|Hg]; [done|].
    destruct (admit_key (user_limit s) _ _ _ _) as [[] um] eqn:Hu; [|done].
    destruct (admit_key (ip_limit s) _ _ _ _) as [[] im] eqn:Hi; [|done].
    intros _. f_equal. apply Hkey; [done..|]. rewrite Hi. split; [|done].
    apply Hkey; [done..|]. rewrite Hu. split; [|done].
    subst w0. by apply scope_wait_admitted.
Qed.

Lemma zero_wait_iff_admitted_witness :
  let s := mkRateLimiter 100 60 10 60 50 60
             {[ Qc_of_Z 5 := 10 ]} {[ 42 := {[ Qc_of_Z 5 := 10 ]} ]}
             {[ "10.0.0.1" := {[ Qc_of_Z 5 := 10 ]} ]} in
  (is_allowed (Qc_of_Z 6) (Some 43) (Some "10.0.0.1") s).1.1 = Return true ∧
  (is_allowed (Qc_of_Z 6) (Some 42) (Some "10.0.0.1") s).1.1 ≠ Return true.
Proof.
  intros s. split.
  - apply zero_wait_iff_admitted; [simpl; lia..|]. by vm_compute.
  - intros Hadm. apply zero_wait_iff_admitted in Hadm; [|simpl; lia..].
    by vm_compute in Hadm.
Defined.

(** ** Limits that are not positive *)

Lemma admit_key_never_counted {K} `{Countable K} limit window now
    (key : option K) (m m' : gmap K buckets) ok :
  limit ≤ 0 → never_counted m →
  admit_key limit window now key m = (ok, m') →
  never_counted m' ∧ (is_Some key → ok = false).
Proof.
  intros Hl Hm. unfold admit_key. destruct key as [k|].
  2: { intros [= <- <-]. split; [done|]. by intros [? [=]]. }
  assert (default ∅ (m !! k) = ∅) as ->.
  { destruct (m !! k) as [d|] eqn:Hd; simpl; [by apply (Hm k)|done]. }
  rewrite cleanup_empty, sum_values_empty, geb_true by done.
  intros [= <- <-]. split; [|done]. intros x d.
  destruct (decide (k = x)) as [->|Hne].
  - rewrite track_lookup. intros [= <-].
    destruct (m !! x) as [d|] eqn:Hd; simpl; [by apply (Hm x)|done].
  - rewrite track_lookup_ne by done. apply Hm.
Qed.

Lemma never_counted_empty {K} `{Countable K} :
  never_counted (∅ : gmap K buckets).
Proof. intros k d. by rewrite lookup_empty. Qed.

Lemma run_operations_global_closed ops : ∀ s,
  global_limit s ≤ 0 → global_requests s = ∅ → run_operations ops s = s.
Proof.
  induction ops as [|op ops IH]; intros s Hl Hg; [done|]. simpl.
  assert (run_operation s op = s) as ->; [|by apply IH].
  destruct op as [now u i|now u i]; simpl.
  - rewrite is_allowed_run. cbv zeta.
    rewrite Hg, cleanup_empty, sum_values_empty, geb_true by done.
    simpl. rewrite <-Hg. by destruct s.
  - by rewrite get_wait_time_run.
Qed.

Lemma run_operations_user_closed ops : ∀ s,
  user_limit s ≤ 0 → never_counted (user_requests s) →
  never_counted (user_requests (run_operations ops s)) ∧
  config (run_operations ops s) = config s.
Proof.
  induction ops as [|op ops IH]; intros s Hl Hs; [done|]. simpl.
  assert (never_counted (user_requests (run_operation s op)) ∧
          config (run_operation s op) = config s) as [Hs1 Hcfg1].
  { destruct op as [now u i|now u i]; simpl.
    2: { by rewrite get_wait_time_run. }
    split; [|apply is_allowed_config].
    rewrite is_allowed_run. cbv zeta.
    destruct (sum_values _ >=? global_limit s); [done|].
    destruct (admit_key (user_limit s) _ _ _ _) as [uok um] eqn:Hu.
    destruct (admit_key_never_counted _ _ _ _ _ _ _ Hl Hs Hu) as [Hum _].
    destruct uok; [|done].
    by destruct (admit_key (ip_limit s) _ _ _ _) as [iok im]. }
  destruct (IH (run_operation s op)) as [Hs' Hcfg']; [|done|].
  { unfold config in Hcfg1. injection Hcfg1 as _ _ -> _ _ _. done. }
  split; [done|congruence].
Qed.

Lemma run_operations_ip_closed ops : ∀ s,
  ip_limit s ≤ 0 → never_counted (ip_requests s) →
  never_counted (ip_requests (run_operations ops s)) ∧
  config (run_operations ops s) = config s.
Proof.
  induction ops as [|op ops IH]; intros s Hl Hs; [done|]. simpl.
  assert (never_counted (ip_requests (run_operation s op)) ∧
          config (run_operation s op) = config s) as [Hs1 Hcfg1].
  { destruct op as [now u i|now u i]; simpl.
    2: { by rewrite get_wait_time_run. }
    split; [|apply is_allowed_config].
    rewrite is_allowed_run. cbv zeta.
    destruct (sum_values _ >=? global_limit s); [done|].
    destruct (admit_key (user_limit s) _ _ _ _) as [[] um]; [|done].
    destruct (admit_key (ip_limit s) _ _ _ _) as [iok im] eqn:Hi.
    by destruct (admit_key_never_counted _ _ _ _ _ _ _ Hl Hs Hi). }
  destruct (IH (run_operation s op)) as [Hs' Hcfg']; [|done|].
  { unfold config in Hcfg1. injection Hcfg1 as _ _ _ _ -> _. done. }
  split; [done|congruence].
Qed.

(** X7. A limit of zero, or a negative one, closes its scope.  With
    such a global limit every call of [is_allowed] is denied with the
    global warning and the limiter stays exactly as [__init__] made it,
    whatever was called before.  With such a user limit every call that
    carries a user id is denied, and with such an IP limit every call
    that carries an IP address is denied, after any history of calls. *)
Theorem nonpositive_limit_closes_scope gl gw ul uw il iw ops now u i :
  let s := run_operations ops (init gl gw ul uw il iw) in
  (gl ≤ 0 →
   s = init gl gw ul uw il iw ∧
   is_allowed now u i s = (Return false, s, ["Global rate limit exceeded"])) ∧
  (ul ≤ 0 → is_Some u → (is_allowed now u i s).1.1 = Return false) ∧
  (il ≤ 0 → is_Some i → (is_allowed now u i s).1.1 = Return false).
Proof.
  intros s. split_and!.
  - intros Hgl.
    assert (s = init gl gw ul uw il iw) as Hs
      by (by apply run_operations_global_closed).
    split; [done|]. rewrite Hs, is_allowed_run. cbv zeta. simpl.
    by rewrite cleanup_empty, sum_values_empty, geb_true.
  - intros Hul Hu.
    destruct (run_operations_user_closed ops (init gl gw ul uw il iw))
      as [Hs Hcfg]; [done|apply never_counted_empty|].
    fold s in Hs, Hcfg. unfold config in Hcfg. simpl in Hcfg.
    injection Hcfg as _ _ Hul' _ _ _.
    rewrite is_allowed_run. cbv zeta.
    destruct (sum_values _ >=? global_limit s); [done|].
    destruct (admit_key (user_limit s) _ _ _ _) as [uok um] eqn:Hadm.
    assert (user_limit s ≤ 0) as Hl by lia.
    destruct (admit_key_never_counted _ _ _ _ _ _ _ Hl Hs Hadm) as [_ Hok].
    by rewrite (Hok Hu).
  - intros Hil Hi.
    destruct (run_operations_ip_closed ops (init gl gw ul uw il iw))
      as [Hs Hcfg]; [done|apply never_counted_empty|].
    fold s in Hs, Hcfg. unfold config in Hcfg. simpl in Hcfg.
    injection Hcfg as _ _ _ _ Hil' _.
    rewrite is_allowed_run. cbv zeta.
    destruct (sum_values _ >=? global_limit s); [done|].
    destruct (admit_key (user_limit s) _ _ _ _) as [[] um]; [|done].
    destruct (admit_key (ip_limit s) _ _ _ _) as [iok im] eqn:Hadm.
    assert (ip_limit s ≤ 0) as Hl by lia.
    destruct (admit_key_never_counted _ _ _ _ _ _ _ Hl Hs Hadm) as [_ Hok].
    by rewrite (Hok Hi).
Qed.

Lemma nonpositive_limit_closes_scope_witness :
  (is_allowed (Qc_of_Z 9) None None
     (run_operations [IsAllowed (Qc_of_Z 1) (Some 42) None]
        (init 0 60 10 60 50 60))).1.1 = Return false ∧
  (is_allowed (Qc_of_Z 9) (Some 42) None
     (run_operations [IsAllowed (Qc_of_Z 1) (Some 42) None]
        (init 100 60 0 60 50 60))).1.1 = Return false.
Proof.
  split.
  - destruct (nonpositive_limit_closes_scope 0 60 10 60 50 60
                [IsAllowed (Qc_of_Z 1) (Some 42) None] (Qc_of_Z 9) None None)
      as ([_ Hrun] & _); [lia|]. by rewrite Hrun.
  - destruct (nonpositive_limit_closes_scope 100 60 0 60 50 60
                [IsAllowed (Qc_of_Z 1) (Some 42) None] (Qc_of_Z 9)
                (Some 42) None)
      as (_ & Hu & _). apply Hu; [lia|by eexists].
Defined.

(** ** The throttle and the callable *)

Lemma wrapper_attempts_transparent {W A B} limit window
    (func : callable W A B) args t0 ts : ∀ k st,
  positive_counts (requests st) → sum_values (requests st) = k →
  since t0 (requests st) → k + Z.of_nat (length ts) ≤ limit →
  Forall (within t0 window) ts →
  let r := attempts (map (λ now, wrapper limit window func now args) ts) st in
  let r0 := attempts (replicate (length ts) (call func args)) (world st) in
  r.1 = r0.1 ∧ world r.2 = r0.2 ∧
  positive_counts (requests r.2) ∧
  sum_values (requests r.2) = k + Z.of_nat (length ts) ∧
  since t0 (requests r.2).
Proof.
  induction ts as [|now ts IH]; intros k st Hpos Hsum Hsince Hk Hts.
  - simpl. split_and!; try done. lia.
  - apply Forall_cons in Hts as [Hnow Hts]. simpl in Hk. simpl.
    rewrite wrapper_run. cbv zeta.
    rewrite (cleanup_within t0) by done. rewrite geb_false by lia.
    destruct (call func args (world st)) as [[o w'] l].
    specialize (IH (k + 1) (mkThrottled (increment (requests st) now) w')).
    simpl in IH. destruct IH as (Hout & Hworld & Hpos' & Hsum' & Hsince').
    + by apply positive_counts_increment.
    + rewrite sum_values_increment. lia.
    + apply since_increment; [done|]. by destruct Hnow.
    + lia.
    + done.
    + destruct (attempts (map _ ts) _) as [rs st'].
      destruct (attempts (replicate _ _) w') as [rs0 w0]. simpl in *.
      split_and!; try done; [congruence|lia].
Qed.

(** X8. Below its limit the throttle is transparent, and every call it
    lets through counts, whatever the call does.  For any callable, also
    one that raises: the first [N] calls of the function wrapped by
    [rate_limit(N, window)], made inside one window, have exactly the
    outcomes and the effect on the callable's world of [N] calls of the
    bare callable; they all count, so the next call inside the window
    raises the rate-limit error without running the callable, even when
    every call before it failed. *)
Theorem throttle_is_transparent_below_limit {W A B} (func : callable W A B)
    args (N : nat) window ts t_last t0 w :
  length ts = N →
  Forall (within t0 window) (ts ++ [t_last]) →
  let r := attempts
             (map (λ now, rate_limit (Z.of_nat N) window func now args) ts)
             (decorated w) in
  let r0 := attempts (replicate N (call func args)) w in
  r.1 = r0.1 ∧ world r.2 = r0.2 ∧
  sum_values (requests r.2) = Z.of_nat N ∧
  rate_limit (Z.of_nat N) window func t_last args r.2
    = (Raise (RuntimeError "Rate limit exceeded"), r.2,
       ["Function rate limit exceeded: " +:+ __name__ func]).
Proof.
  intros Hlen Hwithin r r0. apply Forall_app in Hwithin as [Hts Hlast].
  apply Forall_inv in Hlast. unfold rate_limit in *.
  destruct (wrapper_attempts_transparent (Z.of_nat N) window func args t0 ts
              0 (decorated w))
    as (Hout & Hworld & Hpos & Hsum & Hsince);
    [apply positive_counts_empty|apply sum_values_empty| |lia|done|].
  { intros k c. simpl. by rewrite lookup_empty. }
  rewrite Hlen in Hout, Hworld. simpl in Hout, Hworld.
  rewrite Hlen, Z.add_0_l in Hsum.
  fold r in Hout, Hworld, Hpos, Hsum, Hsince. fold r0 in Hout, Hworld.
  split_and!; [done..|].
  rewrite wrapper_run. cbv zeta. rewrite (cleanup_within t0) by done.
  rewrite geb_true by lia. by destruct (r.2).
Qed.

(** A callable that fails every time, throttled to two calls per ten
    seconds: its own error twice, then the rate-limit error. *)
Lemma throttle_is_transparent_below_limit_witness :
  let failing : callable unit unit unit :=
    mkCallable "fetch" (λ _, raise KeyError) in
  let r := attempts (map (λ now, rate_limit 2 10 failing now ())
                       (Qc_of_Z <$> [0; 1])) (decorated ()) in
  r.1 = [Raise KeyError; Raise KeyError] ∧
  (rate_limit 2 10 failing (Qc_of_Z 2) () r.2).1.1
    = Raise (RuntimeError "Rate limit exceeded").
Proof.
  intros failing r.
  pose proof (throttle_is_transparent_below_limit failing () 2%nat 10
                (Qc_of_Z <$> [0; 1]) (Qc_of_Z 2) (Qc_of_Z 0) ()) as H.
  cbv zeta in H. destruct H as (Hout & _ & _ & Hlast).
  - reflexivity.
  - simpl. within_readings.
  - split.
    + etrans; [exact Hout|]. by vm_compute.
    + exact (f_equal (λ x, x.1.1) Hlast).
Defined.

(** X9. A throttle left alone for its window and a second more is as
    good as new: when every bucket of its dict is at least a second past
    the window at the reading of a call, that call and all the calls
    after it go exactly as they would on a freshly decorated function. *)
Theorem stale_throttle_is_fresh {W A B} limit window (func : callable W A B)
    args now ts st :
  long_expired window now (requests st) →
  attempts (map (λ t, wrapper limit window func t args) (now :: ts)) st
  = attempts (map (λ t, wrapper limit window func t args) (now :: ts))
      (decorated (world st)).
Proof.
  intros Hexpired. simpl. rewrite !wrapper_run. cbv zeta. simpl.
  by rewrite cleanup_long_expired, cleanup_empty.
Qed.

Lemma stale_throttle_is_fresh_witness :
  (attempts (map (λ t, wrapper 1 10 (noop "ping") t ())
               (Qc_of_Z <$> [20; 21]))
     (mkThrottled {[ Qc_of_Z 0 := 1 ]} ())).1
  = [Return (); Raise (RuntimeError "Rate limit exceeded")].
Proof.
  change (Qc_of_Z <$> [20; 21]) with (Qc_of_Z 20 :: (Qc_of_Z <$> [21])).
  rewrite stale_throttle_is_fresh; [by vm_compute|].
  simpl. apply long_expired_singleton. by vm_compute.
Defined.

(** ** The example run *)

Lemma is_allowed_returns now u i s :
  ∃ b s' l, is_allowed now u i s = (Return b, s', l) ∧ (b = true → l = []).
Proof.
  rewrite is_allowed_run. cbv zeta.
  destruct (sum_values _ >=? global_limit s); [by eexists _, _, _|].
  destruct (admit_key (user_limit s) _ _ _ _) as [[] um];
    [|by eexists _, _, _].
  destruct (admit_key (ip_limit s) _ _ _ _) as [[] im]; by eexists _, _, _.
Qed.

Lemma get_wait_time_returns now u i s :
  ∃ w, get_wait_time now u i s = (Return w, s, []) ∧ 0 ≤ w.
Proof.
  rewrite get_wait_time_run. cbv zeta. eexists. split; [done|].
  assert (0 ≤ scope_wait (global_limit s) (global_window s) now 0
                (global_requests s)) as Hw0 by (by apply scope_wait_nonneg).
  destruct (u ≫= _); simpl; destruct (i ≫= _); simpl;
    repeat apply scope_wait_nonneg; done.
Qed.

(** One turn of the loop of [main], by what [is_allowed] answers. *)
Lemma main_request_run clock uid ip i p b s l w :
  is_allowed (clock (clock_reads p)) (Some uid) (Some ip) (rate_limiter p)
    = (Return b, s, l) →
  get_wait_time (clock (S (clock_reads p))) (Some uid) (Some ip) s
    = (Return w, s, []) →
  main_request clock uid ip i p =
    (Return (),
     if b
     then mkProcess s (S (clock_reads p))
            (stdout p ++ ["Request " +:+ pretty (i + 1) +:+ " allowed"])
            (sleeps p)
     else mkProcess s (S (S (clock_reads p)))
            (stdout p ++ ["Request " +:+ pretty (i + 1) +:+ " denied";
                          "Please wait for " +:+ format_2f w +:+
                          " seconds before retrying"])
            (sleeps p ++ [w + 1]),
     l).
Proof.
  intros Hrun Hwait.
  unfold main_request, call_is_allowed, call_get_wait_time, on_rate_limiter,
    time_time, print, time_sleep.
  unfold_monad. simpl. rewrite Hrun. simpl.
  destruct b; simpl.
  - by rewrite app_nil_r.
  - rewrite Hwait. simpl. by rewrite <-app_assoc, !app_nil_r.
Qed.

(** The loop of [main] never raises, prints in order and sleeps for at
    least a second each time it sleeps, on any clock. *)
Lemma main_loop_runs clock uid ip idx : ∀ p,
  ∃ p' l out sl,
    for_each idx (main_request clock uid ip) p = (Return (), p', l) ∧
    stdout p' = stdout p ++ out ∧ sleeps p' = sleeps p ++ sl ∧
    Forall (λ d, 1 ≤ d) sl ∧
    clock_reads p' = (clock_reads p + length idx + length sl)%nat ∧
    (length idx ≤ length out)%nat.
Proof.
  induction idx as [|i idx IH]; intros p.
  - exists p, [], [], []. simpl.
    rewrite !app_nil_r. split_and!; (done || lia || by apply Forall_nil).
  - destruct (is_allowed_returns (clock (clock_reads p)) (Some uid) (Some ip)
                (rate_limiter p)) as (b & s & l & Hrun & _).
    destruct (get_wait_time_returns (clock (S (clock_reads p))) (Some uid)
                (Some ip) s) as (w & Hwait & Hw).
    pose proof (main_request_run clock uid ip i p b s l w Hrun Hwait) as Hstep.
    simpl. unfold_monad. rewrite Hstep.
    set (p1 := if b then _ else _).
    destruct (IH p1) as (p' & l' & out & sl & -> & Hout & Hsl & Hpos & Hreads
                         & Hlen).
    subst p1. destruct b; simpl in *.
    + exists p', (l ++ l'),
        (("Request " +:+ pretty (i + 1) +:+ " allowed") :: out), sl.
      rewrite Hout, <-app_assoc. simpl.
      split_and!; (done || lia).
    + exists p', (l ++ l'),
        (("Request " +:+ pretty (i + 1) +:+ " denied")
         :: ("Please wait for " +:+ format_2f w +:+
             " seconds before retrying") :: out),
        ((w + 1) :: sl).
      rewrite Hout, Hsl, <-!app_assoc. simpl.
      split_and!; try done; [|lia|lia].
      apply Forall_cons. split; [lia|done].
Qed.

Lemma is_allowed_room_step u i k s now :
  room u i k s → (∀ Y, k < scope_limit Y s) →
  ∃ s', is_allowed now u i s = (Return true, s', []) ∧
    room u i (k + 1) s' ∧ config s' = config s.
Proof.
  intros Hall Hlim.
  destruct (Hall Global _ eq_refl) as [Hgpos Hgsum].
  pose proof (sum_values_cleanup (global_requests s) (global_window s) now
                Hgpos) as Hgc.
  pose proof (Hlim Global) as Hgl. pose proof (Hlim PerUser) as Hul.
  pose proof (Hlim PerIP) as Hil. simpl in Hgl, Hul, Hil.
  rewrite is_allowed_run. cbv zeta. rewrite geb_false by lia.
  destruct (admit_key_counted (user_limit s) (user_window s) now u
              (user_requests s) k) as (um & -> & Hum); [|done|].
  { intros x ->. by destruct (Hall PerUser _ eq_refl). }
  destruct (admit_key_counted (ip_limit s) (ip_window s) now i
              (ip_requests s) k) as (im & -> & Him); [|done|].
  { intros x ->. by destruct (Hall PerIP _ eq_refl). }
  eexists. split; [done|]. split; [|done].
  intros Y d' HY. destruct Y; simpl in HY.
  - injection HY as <-. by apply bucket_step_bound.
  - rewrite Hum in HY. destruct u as [x|]; [|done].
    injection HY as <-. destruct (Hall PerUser _ eq_refl).
    by apply bucket_step_bound.
  - rewrite Him in HY. destruct i as [x|]; [|done].
    injection HY as <-. destruct (Hall PerIP _ eq_refl).
    by apply bucket_step_bound.
Qed.

(** Turns of the loop that are all admitted, [Inv j] being what is known
    of the limiter after [j] of them. *)
Lemma main_loop_admitted clock uid ip idx :
  ∀ (Inv : nat → RateLimiter → Prop) p,
  (∀ j s, (j < length idx)%nat → Inv j s →
     ∃ s', is_allowed (clock (clock_reads p + j)%nat) (Some uid) (Some ip) s
             = (Return true, s', []) ∧ Inv (S j) s') →
  Inv 0%nat (rate_limiter p) →
  ∃ p', for_each idx (main_request clock uid ip) p = (Return (), p', []) ∧
    stdout p' = stdout p ++
      ((λ i, "Request " +:+ pretty (i + 1) +:+ " allowed") <$> idx) ∧
    sleeps p' = sleeps p ∧
    clock_reads p' = (clock_reads p + length idx)%nat ∧
    Inv (length idx) (rate_limiter p').
Proof.
  induction idx as [|i idx IH]; intros Inv p Hstep H0.
  - exists p. cbn [for_each length fmap list_fmap].
    rewrite app_nil_r, Nat.add_0_r. by split_and!.
  - destruct (Hstep 0%nat (rate_limiter p)) as (s1 & Hrun & H1);
      [cbn [length]; lia|exact H0|].
    rewrite Nat.add_0_r in Hrun.
    destruct (get_wait_time_returns (clock (S (clock_reads p))) (Some uid)
                (Some ip) s1) as (w & Hwait & _).
    pose proof (main_request_run clock uid ip i p true s1 [] w Hrun Hwait)
      as Hturn.
    simpl. unfold_monad. rewrite Hturn.
    set (p1 := mkProcess s1 _ _ _).
    destruct (IH (λ j, Inv (S j)) p1) as (p' & -> & Hout & Hsl & Hreads & HI).
    + intros j s Hj Hs. subst p1. cbn [clock_reads].
      replace (S (clock_reads p) + j)%nat with (clock_reads p + S j)%nat
        by lia.
      apply Hstep; [cbn [length]; lia|exact Hs].
    + exact H1.
    + exists p'. subst p1. cbn [stdout sleeps clock_reads rate_limiter] in *.
      rewrite Hout, <-app_assoc. cbn [length fmap list_fmap app].
      split_and!; [reflexivity|reflexivity|exact Hsl|lia|exact HI].
Qed.

Lemma for_each_app {S A} (l1 l2 : list A) (body : A → M S unit) p p1 log1 :
  for_each l1 body p = (Return (), p1, log1) →
  for_each (l1 ++ l2) body p =
    match for_each l2 body p1 with (r, p2, log2) => (r, p2, log1 ++ log2) end.
Proof.
  revert p log1. induction l1 as [|x l1 IH]; intros p log1; simpl.
  - unfold_monad. intros [= <- <-].
    by destruct (for_each l2 body p) as [[r p2] log2].
  - unfold_monad. destruct (body x p) as [[[[]|e] px] lx]; [|done].
    destruct (for_each l1 body px) as [[r1 p1'] l1'] eqn:H1.
    intros [= -> -> <-]. rewrite (IH _ _ H1).
    destruct (for_each l2 body p1) as [[r p2] log2].
    by rewrite app_assoc.
Qed.

Lemma room_init u i gl gw ul uw il iw : room u i 0 (init gl gw ul uw il iw).
Proof. by destruct (counted_init Global u i 0%Qc gl gw ul uw il iw). Qed.

(** X10. [main] runs to its end on any clock: whatever values the
    readings of the clock return (even if they go backwards), it raises
    nothing, its requests 1 to 10 are allowed, it prints at least one
    line per request, it never asks [time.sleep] for less than one
    second (so never for a negative duration), and it reads the clock
    once per request and once more per denial. *)
Theorem main_runs_on_any_clock clock :
  ∃ p log, main clock = (Return (), p, log) ∧
    take 10 (stdout p) =
      ["Request 1 allowed"; "Request 2 allowed"; "Request 3 allowed";
       "Request 4 allowed"; "Request 5 allowed"; "Request 6 allowed";
       "Request 7 allowed"; "Request 8 allowed"; "Request 9 allowed";
       "Request 10 allowed"] ∧
    (15 ≤ length (stdout p))%nat ∧
    Forall (λ d, 1 ≤ d) (sleeps p) ∧
    clock_reads p = (15 + length (sleeps p))%nat.
Proof.
  unfold main. cbv zeta.
  change (range 15) with (range 10 ++ (Z.of_nat <$> seq 10 5)).
  set (p0 := mkProcess default_limiter 0 [] []).
  destruct (main_loop_admitted clock 123456789 "192.168.1.1" (range 10)
    (λ j s, room (Some 123456789) (Some "192.168.1.1") (Z.of_nat j) s ∧
            config s = config default_limiter) p0)
    as (p1 & Hrun1 & Hout1 & Hsl1 & Hreads1 & _).
  { intros j s Hj [Hroom Hcfg]. simpl in Hj.
    destruct (is_allowed_room_step (Some 123456789) (Some "192.168.1.1")
                (Z.of_nat j) s (clock (clock_reads p0 + j)%nat) Hroom)
      as (s' & Hrun & Hroom' & Hcfg').
    - intros Y. destruct (scope_limit_config Y _ _ Hcfg) as [-> _].
      destruct Y; simpl; lia.
    - exists s'. split; [done|]. split; [|congruence].
      by replace (Z.of_nat (S j)) with (Z.of_nat j + 1) by lia. }
  { split; [apply room_init|done]. }
  rewrite (for_each_app _ _ _ _ _ _ Hrun1).
  destruct (main_loop_runs clock 123456789 "192.168.1.1"
              (Z.of_nat <$> seq 10 5) p1)
    as (p2 & l2 & out & sl & -> & Hout2 & Hsl2 & Hpos & Hreads2 & Hlen).
  exists p2, l2. split; [done|].
  rewrite Hout2, Hout1, Hsl2, Hsl1, Hreads2, Hreads1.
  assert ((λ i : Z, "Request " +:+ pretty (i + 1) +:+ " allowed") <$> range 10
          = ["Request 1 allowed"; "Request 2 allowed"; "Request 3 allowed";
             "Request 4 allowed"; "Request 5 allowed"; "Request 6 allowed";
             "Request 7 allowed"; "Request 8 allowed"; "Request 9 allowed";
             "Request 10 allowed"]) as -> by (by vm_compute).
  subst p0. cbn [stdout sleeps clock_reads app].
  rewrite ?length_app, ?length_fmap, ?length_seq in *. cbn [length] in *.
  split_and!; [reflexivity|lia|exact Hpos|].
  unfold range. rewrite length_fmap, length_seq. lia.
Qed.

Lemma for_each_singleton {S A} (x : A) (body : A → M S unit) p p' log :
  body x p = (Return (), p', log) →
  for_each [x] body p = (Return (), p', log).
Proof.
  intros Hx. cbn [for_each]. unfold_monad. rewrite Hx.
  by rewrite app_nil_r.
Qed.

Lemma sleep_honoured (t t' : Qc) :
  (t + Qc_of_Z 61 ≤ t')%Qc → (t + Qc_of_Z 60 < t')%Qc.
Proof.
  intros Ht. assert (inject_Z 60 < inject_Z 61)%Q as Hq.
  { by rewrite <-Zlt_Qlt. }
  qc_lra.
Qed.

Lemma no_later_stale (t t' : Qc) (window W : Z) d :
  window ≤ W → (t + Qc_of_Z W < t')%Qc → no_later t d → stale window t' d.
Proof.
  intros HW Ht Hd k c Hk.
  apply (past_window t t' k window W); [done| |done]. by apply (Hd k c).
Qed.

(** The eleventh request of [main], made within a minute of the first
    ten: denied by the user scope, with an advice of 60 s. *)
Lemma main_eleventh_request (t0 t10 t11 : Qc) s :
  counted PerUser (Some 123456789) (Some "192.168.1.1") t0 10 s →
  config s = config default_limiter →
  within t0 60 t10 → within t0 60 t11 →
  ∃ s', is_allowed t10 (Some 123456789) (Some "192.168.1.1") s
          = (Return false, s', ["Rate limit exceeded for user 123456789"]) ∧
    get_wait_time t11 (Some 123456789) (Some "192.168.1.1") s'
      = (Return 60, s', []).
Proof.
  intros [Hall HX] Hcfg H10 H11.
  destruct s as [gl gw ul uw il iw g um im]. unfold config in Hcfg.
  simpl in Hcfg. injection Hcfg as -> -> -> -> -> ->.
  destruct (Hall Global _ eq_refl) as [Hgpos Hgsum].
  destruct (HX _ eq_refl) as [Husum Husince].
  pose proof (Hall PerIP _ eq_refl) as [Hipos Hisum].
  cbn [scope_buckets global_requests user_requests ip_requests fmap
       option_fmap option_map] in *.
  set (d := default ∅ (um !! 123456789)) in *.
  pose proof (sum_values_cleanup g 60 t10 Hgpos) as Hgc.
  rewrite is_allowed_run. cbv zeta.
  cbn [global_requests user_requests ip_requests global_limit global_window
       user_limit user_window ip_limit ip_window].
  rewrite geb_false by lia.
  rewrite admit_key_denied.
  2: { fold d. rewrite (cleanup_within t0) by done. lia. }
  eexists. split; [reflexivity|].
  rewrite get_wait_time_run. cbv zeta.
  cbn [global_requests user_requests ip_requests global_limit global_window
       user_limit user_window ip_limit ip_window set_user_requests
       set_global_requests mbind option_bind].
  rewrite track_lookup. fold d. cbn [from_option].
  destruct (bucket_step_bound g 60 t10 10 Hgpos Hgsum) as [Hg1pos Hg1sum].
  rewrite (scope_wait_admitted 100).
  2: { pose proof (sum_values_cleanup _ 60 t11 Hg1pos). lia. }
  assert (scope_wait 10 60 t11 0 d = 60) as ->.
  { unfold scope_wait. rewrite (cleanup_within t0) by done.
    by rewrite geb_true by lia. }
  destruct (im !! "192.168.1.1") as [d'|] eqn:Hd'; cbn [from_option default].
  - cbn [default from_option id] in Hipos, Hisum.
    rewrite scope_wait_admitted; [done|].
    pose proof (sum_values_cleanup d' 60 t11 Hipos). lia.
  - done.
Qed.

(** X11. [main] on a clock that runs on: when the first eleven requests
    and the look at the wait time all fall within one minute, on
    readings that do not pass the twelfth, and the reading after
    [time.sleep(61)] is at least 61 s later, [main] allows requests 1
    to 10, denies request 11 at the user limit of 10, advises and sleeps
    the user window plus one second, and allows requests 12 to 15. *)
Theorem main_on_a_running_clock clock :
  (∀ n, (n ≤ 11)%nat →
     within (clock 0%nat) 60 (clock n) ∧ (clock n ≤ clock 11%nat)%Qc) →
  (clock 11%nat + Qc_of_Z 61 ≤ clock 12%nat)%Qc →
  ∃ p, main clock
       = (Return (), p, ["Rate limit exceeded for user 123456789"]) ∧
    stdout p =
      ["Request 1 allowed"; "Request 2 allowed"; "Request 3 allowed";
       "Request 4 allowed"; "Request 5 allowed"; "Request 6 allowed";
       "Request 7 allowed"; "Request 8 allowed"; "Request 9 allowed";
       "Request 10 allowed"; "Request 11 denied";
       "Please wait for 60.00 seconds before retrying";
       "Request 12 allowed"; "Request 13 allowed"; "Request 14 allowed";
       "Request 15 allowed"] ∧
    sleeps p = [61] ∧ clock_reads p = 16%nat.
Proof.
  intros Hclock Hsleep.
  unfold main. cbv zeta.
  change (range 15)
    with (range 10 ++ [10] ++ [11] ++ (Z.of_nat <$> seq 12 3)).
  set (p0 := mkProcess default_limiter 0 [] []).
  (* requests 1 to 10 *)
  destruct (main_loop_admitted clock 123456789 "192.168.1.1" (range 10)
    (λ j s, counted PerUser (Some 123456789) (Some "192.168.1.1") (clock 0%nat) (Z.of_nat j) s ∧
            config s = config default_limiter ∧
            limiter_inv s ∧ limiter_no_later (clock 11%nat) s) p0)
    as (p1 & Hrun1 & Hout1 & Hsl1 & Hreads1 & Hc & Hcfg & Hinv & Hno).
  { intros j s Hj (Hc & Hcfg & Hinv & Hno).
    unfold range in Hj. rewrite length_fmap, length_seq in Hj.
    destruct (Hclock j) as [Hwithin Hle]; [lia|].
    assert (∀ Y, scope_limit Y s = scope_limit Y default_limiter) as Hlim.
    { intros Y. by destruct (scope_limit_config Y _ _ Hcfg). }
    destruct (is_allowed_counted_step PerUser (Some 123456789) (Some "192.168.1.1") (clock 0%nat)
                (Z.of_nat j) s (clock (clock_reads p0 + j)%nat) Hc)
      as (s' & Hrun & Hc' & Hcfg').
    - intros Y. rewrite Hlim. destruct Y; cbn; lia.
    - destruct (scope_limit_config PerUser _ _ Hcfg) as [_ ->]. exact Hwithin.
    - exists s'. split; [exact Hrun|].
      pose proof (is_allowed_inv (clock (clock_reads p0 + j)%nat)
                    (Some 123456789) (Some "192.168.1.1") s) as Hinv'.
      pose proof (is_allowed_no_later (clock (clock_reads p0 + j)%nat)
                    (clock 11%nat) (Some 123456789) (Some "192.168.1.1") s Hle Hno) as Hno'.
      rewrite Hrun in Hinv', Hno'. cbn [fst snd] in Hinv', Hno'.
      split_and!.
      + by replace (Z.of_nat (S j)) with (Z.of_nat j + 1) by lia.
      + congruence.
      + apply Hinv'; [| |exact Hinv].
        * pose proof (Hlim PerUser) as Hl. cbn in Hl. lia.
        * pose proof (Hlim PerIP) as Hl. cbn in Hl. lia.
      + exact Hno'. }
  { split_and!.
    - apply counted_init.
    - reflexivity.
    - apply limiter_inv_init. lia.
    - apply limiter_no_later_init. }
  assert (clock_reads p1 = 10%nat) as Hr1.
  { rewrite Hreads1. unfold range. by rewrite length_fmap, length_seq. }
  (* request 11 and the look at the wait time *)
  destruct (main_eleventh_request (clock 0%nat) (clock 10%nat)
              (clock 11%nat) (rate_limiter p1) Hc Hcfg)
    as (s11 & Hrun11 & Hwait11);
    [by apply Hclock; lia|by apply Hclock; lia|].
  pose proof (main_request_run clock 123456789 "192.168.1.1" 10 p1 false s11
                ["Rate limit exceeded for user 123456789"] 60) as Hturn11.
  rewrite Hr1 in Hturn11. specialize (Hturn11 Hrun11 Hwait11).
  apply for_each_singleton in Hturn11.
  set (p2 := mkProcess s11 12 _ _) in Hturn11.
  (* request 12, after the sleep *)
  assert (config s11 = config default_limiter ∧ limiter_inv s11 ∧
          limiter_no_later (clock 11%nat) s11) as (Hcfg11 & Hinv11 & Hno11).
  { pose proof (is_allowed_config (clock 10%nat) (Some 123456789) (Some "192.168.1.1")
                  (rate_limiter p1)) as H1.
    pose proof (is_allowed_inv (clock 10%nat) (Some 123456789) (Some "192.168.1.1")
                  (rate_limiter p1)) as H2.
    pose proof (is_allowed_no_later (clock 10%nat) (clock 11%nat)
                  (Some 123456789) (Some "192.168.1.1") (rate_limiter p1)) as H3.
    rewrite Hrun11 in H1, H2, H3. cbn [fst snd] in H1, H2, H3.
    assert (∀ Y, scope_limit Y (rate_limiter p1)
                 = scope_limit Y default_limiter) as Hlim.
    { intros Y. by destruct (scope_limit_config Y _ _ Hcfg). }
    split_and!.
    - congruence.
    - apply H2; [| |exact Hinv].
      + pose proof (Hlim PerUser) as Hl. cbn in Hl. lia.
      + pose proof (Hlim PerIP) as Hl. cbn in Hl. lia.
    - apply H3; [|exact Hno]. by apply Hclock; lia. }
  assert (∀ Y, scope_limit Y s11 = scope_limit Y default_limiter
               ∧ scope_window Y s11 = scope_window Y default_limiter)
    as Hlim11 by (intros Y; by apply scope_limit_config).
  pose proof (sleep_honoured _ _ Hsleep) as Hlater.
  destruct Hno11 as (Hnog & Hnou & Hnoi).
  destruct (is_allowed_idle (clock 12%nat) (Some 123456789) (Some "192.168.1.1") s11)
    as (Hok12 & Hlog12 & Hg12 & Hu12 & Hi12).
  { destruct (Hlim11 Global) as [Hl _]. cbn in Hl. lia. }
  { destruct (Hlim11 PerUser) as [Hl _]. cbn in Hl. lia. }
  { destruct (Hlim11 PerIP) as [Hl _]. cbn in Hl. lia. }
  { destruct (Hlim11 Global) as [_ Hw]. cbn in Hw. rewrite Hw.
    by apply (no_later_stale (clock 11%nat) _ 60 60). }
  { intros uid [= <-]. destruct (Hlim11 PerUser) as [_ Hw]. cbn in Hw.
    rewrite Hw. apply (no_later_stale (clock 11%nat) _ 60 60); [done..|].
    destruct (user_requests s11 !! 123456789) as [d|] eqn:Hd; cbn [default].
    - by apply (Hnou 123456789).
    - apply no_later_empty. }
  { intros ip [= <-]. destruct (Hlim11 PerIP) as [_ Hw]. cbn in Hw.
    rewrite Hw. apply (no_later_stale (clock 11%nat) _ 60 60); [done..|].
    destruct (ip_requests s11 !! "192.168.1.1") as [d|] eqn:Hd; cbn [default].
    - by apply (Hnoi "192.168.1.1").
    - apply no_later_empty. }
  destruct (is_allowed (clock 12%nat) (Some 123456789) (Some "192.168.1.1") s11)
    as [[o12 s12] l12] eqn:Hrun12.
  cbn [fst snd] in Hok12, Hlog12, Hg12, Hu12, Hi12. subst o12 l12.
  destruct (get_wait_time_returns (clock 13%nat) (Some 123456789) (Some "192.168.1.1") s12)
    as (w12 & Hwait12 & _).
  pose proof (main_request_run clock 123456789 "192.168.1.1" 11 p2 true s12 [] w12 Hrun12 Hwait12)
    as Hturn12.
  apply for_each_singleton in Hturn12.
  unfold p2 in Hturn12 at 2 3 4. cbn [clock_reads stdout sleeps] in Hturn12.
  set (p3 := mkProcess s12 13 _ _) in Hturn12.
  assert (config s12 = config default_limiter) as Hcfg12.
  { pose proof (is_allowed_config (clock 12%nat) (Some 123456789) (Some "192.168.1.1") s11) as H1.
    rewrite Hrun12 in H1. cbn [fst snd] in H1. congruence. }
  (* requests 13 to 15 *)
  destruct (main_loop_admitted clock 123456789 "192.168.1.1" (Z.of_nat <$> seq 12 3)
    (λ j s, room (Some 123456789) (Some "192.168.1.1") (1 + Z.of_nat j) s ∧
            config s = config default_limiter) p3)
    as (p4 & Hrun4 & Hout4 & Hsl4 & Hreads4 & _).
  { intros j s Hj [Hroom Hcfg']. cbn [length fmap list_fmap seq] in Hj.
    destruct (is_allowed_room_step (Some 123456789) (Some "192.168.1.1") (1 + Z.of_nat j) s
                (clock (clock_reads p3 + j)%nat) Hroom)
      as (s' & Hrun & Hroom' & Hcfg'').
    - intros Y. destruct (scope_limit_config Y _ _ Hcfg') as [-> _].
      destruct Y; cbn; lia.
    - exists s'. split; [exact Hrun|]. split; [|congruence].
      by replace (1 + Z.of_nat (S j)) with (1 + Z.of_nat j + 1) by lia. }
  { unfold p3. cbn [rate_limiter]. split; [|exact Hcfg12]. intros Y d HY.
    assert (d = {[ clock 12%nat := 1 ]}) as ->.
    { destruct Y; cbn [scope_buckets fmap option_fmap option_map] in HY.
      - rewrite Hg12 in HY. by injection HY as <-.
      - rewrite (Hu12 123456789 eq_refl) in HY. by injection HY as <-.
      - rewrite (Hi12 "192.168.1.1" eq_refl) in HY. by injection HY as <-. }
    rewrite sum_values_singleton. split; [|by cbn].
    by apply map_Forall_singleton. }
  (* the whole run *)
  rewrite (for_each_app _ _ _ _ _ _ Hrun1).
  rewrite (for_each_app _ _ _ _ _ _ Hturn11).
  rewrite (for_each_app _ _ _ _ _ _ Hturn12).
  rewrite Hrun4. exists p4. split; [reflexivity|].
  rewrite Hout4, Hsl4, Hreads4. subst p3 p2.
  cbn [stdout sleeps clock_reads]. rewrite Hout1, Hsl1. subst p0.
  cbn [stdout sleeps clock_reads].
  split_and!; by vm_compute.
Qed.

(** A clock that ticks once a second from 1700000000 and resumes 61 s
    after the twelfth reading. *)
Lemma main_on_a_running_clock_witness :
  let clock := λ n : nat,
    Qc_of_Z (if decide (n < 12)%nat then 1700000000 + Z.of_nat n
             else 1700000061 + Z.of_nat n) in
  ∃ p, main clock
       = (Return (), p, ["Rate limit exceeded for user 123456789"]) ∧
    sleeps p = [61] ∧ clock_reads p = 16%nat.
Proof.
  intros clock.
  assert (Forall (λ n, within (clock 0%nat) 60 (clock n) ∧
                       (clock n ≤ clock 11%nat)%Qc) (seq 0 12)) as Hclock.
  { cbn [seq].
    repeat (apply Forall_cons; split; [split; [split|]; by vm_compute|]).
    by apply Forall_nil. }
  destruct (main_on_a_running_clock clock) as (p & Hrun & _ & Hsl & Hreads).
  - intros n Hn. apply (proj1 (Forall_forall _ _) Hclock).
    apply elem_of_seq. lia.
  - by vm_compute.
  - exists p. split_and!; [exact Hrun|exact Hsl|exact Hreads].
Defined.
